(** * EasyLabelKit: the curve splitting and merging engine of [elk.py]

    A shallow embedding of [Backend.get_lasso_area], [Backend.get_multi_area],
    [Backend.get_intersection_point] and of the canvas slots that consume
    their signals ([MplCanvas.onselect], [draw_object], [remove_object]),
    together with the zoom window of a detected region, the rows of
    [TreeItem], the class list of [ItemModel] and the class bookkeeping of
    [VisionGui] and [Data].

    Coordinates are image-pixel floats in the source.  They are embedded as
    rationals: every finite float is a rational and [np.round] is exact on
    it.  The sum and the quotient that [np.mean] forms are rounded to the
    nearest double, as [float64] arithmetic does.  NaN and infinities are
    outside the model. *)

From Stdlib Require Import List Bool ZArith QArith Qabs Qround Qpower Lia Lqa Permutation.
From Stdlib Require String DecimalString.
Import String.StringSyntax.
Delimit Scope string_scope with string.
Import ListNotations.

Set Implicit Arguments.
#[local] Set Warnings "-register-all".
Local Open Scope Q_scope.

(** ** Data model *)

Definition coord : Type := (Q * Q)%type.

(** Python compares float coordinates numerically. *)
Definition coord_eqb (p q : coord) : bool :=
  Qeq_bool (fst p) (fst q) && Qeq_bool (snd p) (snd q).

(** The Shapely geometry classes whose type the engine inspects. *)
Inductive Geometry : Type :=
| Point (c : coord)
| LineString (cs : list coord)
| MultiPoint (ps : list coord)
| MultiLineString (ls : list (list coord))
| GeometryCollection (gs : list Geometry).

Inductive exn : Type :=
| ValueError
| IndexError
| TypeError
| UnboundLocalError.

(** ** [numpy] primitives used by the resolver *)

(** [np.round] on a scalar: round half to even. *)
Definition np_round_Z (q : Q) : Z :=
  let f := Qfloor q in
  match Qcompare (q - inject_Z f) (1 # 2) with
  | Lt => f
  | Gt => (f + 1)%Z
  | Eq => if Z.even f then f else (f + 1)%Z
  end.

Definition np_round (q : Q) : Q := inject_Z (np_round_Z q).

Definition np_round_rows (cs : list coord) : list coord :=
  map (fun c => (np_round (fst c), np_round (snd c))) cs.

(** *** [float64] arithmetic

    [floor (log2 |q|)] of a non-zero rational: the difference of the bit
    lengths of numerator and denominator, or one less. *)
Definition Qlog2 (q : Q) : Z :=
  let e := (Z.log2 (Z.abs (Qnum q)) - Z.log2 (Zpos (Qden q)))%Z in
  if Qle_bool (2 ^ e) (Qabs q) then e else (e - 1)%Z.

(** The exponent of the unit in the last place of the double nearest to
    [q]: 53 significant bits, gradual underflow below [2 ^ -1022]. *)
Definition ulp_exponent (q : Q) : Z := Z.max (Qlog2 q - 52) (-1074).

(** The double nearest to [q], a tie going to the even significand.
    Results beyond the largest double, which the machine turns into an
    infinity, are not capped. *)
Definition binary64 (q : Q) : Q :=
  if Qeq_bool q 0 then 0
  else inject_Z (np_round_Z (q / 2 ^ ulp_exponent q)) * 2 ^ ulp_exponent q.

Definition float_add (a b : Q) : Q := binary64 (a + b).
Definition float_div (a b : Q) : Q := binary64 (a / b).

(** [np.add.reduce(a, axis=0)[k]]: the reduction runs along the slow axis
    of the array, so the rows are added one after the other. *)
Definition np_sum (l : list Q) : Q :=
  match l with
  | [] => 0
  | a :: l' => fold_left float_add l' a
  end.

(** [np.mean(a, axis=0)[k]] of a non-empty two-column array: the sum of
    the column, divided by the number of rows. *)
Definition np_mean (l : list Q) : Q :=
  float_div (np_sum l) (inject_Z (Z.of_nat (length l))).

Definition Qabs_gtb (a b : Q) : bool := negb (Qle_bool (Qabs a) b).

(** ** [Backend.get_intersection_point] *)

(** Lines 1117-1125: the loop body returns or raises in its first
    iteration, so only [crosspoints[0]] is ever compared with the start. *)
Definition resolve_rows (crosspoints : list coord) : exn + coord :=
  let crosspoints := np_round_rows crosspoints in
  match crosspoints with
  | [] => inl IndexError
  | (startx, starty) :: _ =>
      match crosspoints with
      | [] => inl IndexError
      | point :: _ =>
          if Qabs_gtb (fst point - startx) 1 || Qabs_gtb (snd point - starty) 1
          then inl ValueError
          else
            let x := np_round (np_mean (map fst crosspoints)) in
            let y := np_round (np_mean (map snd crosspoints)) in
            inr (x, y)
      end
  end.

(** The recursive call of the [MultiLineString] branch is made on a
    [LineString], so it lands in [resolve_rows]; the first failing member
    aborts the whole call.  [np.round] then reads the list of resolved
    points as the rows of an array (Shapely 1.x points expose the array
    interface). *)
Fixpoint resolve_lines (ls : list (list coord)) : exn + list coord :=
  match ls with
  | [] => inr []
  | l :: ls' =>
      match resolve_rows l with
      | inl e => inl e
      | inr p =>
          match resolve_lines ls' with
          | inl e => inl e
          | inr ps => inr (p :: ps)
          end
      end
  end.

Definition get_intersection_point (crosspoints : Geometry) : exn + coord :=
  match crosspoints with
  | Point c => inr c
  | LineString cs => resolve_rows cs
  | MultiLineString ls =>
      match resolve_lines ls with
      | inl e => inl e
      | inr tmp => resolve_rows tmp
      end
  | MultiPoint ps => resolve_rows ps
  | GeometryCollection _ => inl ValueError
  end.

(** ** Effects: emitted Qt signals, early [return], raised exceptions *)

Inductive signal : Type :=
| new_coords (x y : list Q)
| ask_redraw (case : Z).

(** How a slot stops before its last statement. *)
Inductive stop : Type :=
| Return
| Raise (e : exn).

(** A computation emits signals in order and then either stops or goes on
    with a value. *)
Definition M (A : Type) : Type := (list signal * (stop + A))%type.

Definition ret {A} (a : A) : M A := ([], inr a).
Definition bind {A B} (m : M A) (f : A -> M B) : M B :=
  match m with
  | (s, inl e) => (s, inl e)
  | (s, inr a) => let (s', r) := f a in (s ++ s', r)
  end.
Definition emit (sg : signal) : M unit := ([sg], inr tt).
Definition return_ {A} : M A := ([], inl Return).
Definition raise {A} (e : exn) : M A := ([], inl (Raise e)).

Declare Scope py_scope.
Delimit Scope py_scope with py.
Notation "x <- m ;; k" := (bind m (fun x => k))
  (at level 61, m at next level, right associativity) : py_scope.
Notation "m ;;; k" := (bind m (fun _ => k))
  (at level 61, right associativity) : py_scope.
Local Open Scope py_scope.

(** What the caller of a slot observes. *)
Inductive status : Type :=
| Returned
| Raised (e : exn).

Definition run (m : M unit) : list signal * status :=
  match m with
  | (s, inl Return) => (s, Returned)
  | (s, inl (Raise e)) => (s, Raised e)
  | (s, inr _) => (s, Returned)
  end.

Definition emitted (o : list signal * status) : list signal := fst o.

(** [seq[i]] for a non-negative literal index. *)
Definition item {A} (l : list A) (i : nat) : M A :=
  match nth_error l i with
  | Some a => ret a
  | None => raise IndexError
  end.

(** [seq[-1]]. *)
Definition item_last {A} (l : list A) : M A :=
  match rev l with
  | a :: _ => ret a
  | [] => raise IndexError
  end.

(** Reading a local variable that some branch may have left unassigned. *)
Definition local {A} (v : option A) : M A :=
  match v with
  | Some a => ret a
  | None => raise UnboundLocalError
  end.

(** ** The geometry kernel

    [LineString], [intersection], [split], [nearest_points], [distance] and
    [contains] come from Shapely, not from this repository; the engine is
    parametrised by them.  A line is the list of its coordinates. *)

Record Kernel : Type := {
  (* [a.intersection(b)] of two [LineString]s *)
  intersection : list coord -> list coord -> Geometry;
  (* [a.intersects(b)] *)
  intersects : list coord -> list coord -> bool;
  (* the members of [shapely.ops.split(line, Point(p))] *)
  split : list coord -> coord -> list (list coord);
  (* [nearest_points(MultiPoint(cs), Point(p))[0]] *)
  nearest_points : list coord -> coord -> coord;
  (* [LineString(cs).distance(Point(p))] *)
  distance : list coord -> coord -> Q;
  (* [Point(p).distance(Point(q))] *)
  point_distance : coord -> coord -> Q;
  (* [LineString(cs).contains(Point(p))] *)
  contains : list coord -> coord -> bool
}.

(** [LineString(coordinates)]: Shapely 1.x builds the empty line from no
    coordinates and refuses a single coordinate tuple. *)
Definition LineString_init (cs : list coord) : M (list coord) :=
  match cs with
  | [_] => raise ValueError
  | _ => ret cs
  end.

(** [list(LineString(LinearRing(cs)).coords)]: the ring constructor copies
    the first tuple to the end unless the sequence is already closed. *)
Definition LinearRing_coords (cs : list coord) : list coord :=
  match cs, rev cs with
  | first :: _, last :: _ => if coord_eqb first last then cs else cs ++ [first]
  | _, _ => cs
  end.

(** [np.array_split(lasso, 2)]: the first section takes the extra row. *)
Definition array_split (lasso : list coord) : list coord * list coord :=
  let k := Nat.div2 (S (length lasso)) in
  (firstn k lasso, skipn k lasso).

Definition Qltb (a b : Q) : bool := negb (Qle_bool b a).

(** ** [Backend]: the two slots of the engine *)

Section Backend.
Variable K : Kernel.

(** Appending every coordinate of [coordseq] to the lists [x], [y]. *)
Definition xs (coordseq : list coord) : list Q := map fst coordseq.
Definition ys (coordseq : list coord) : list Q := map snd coordseq.

(** Lines 954-976: classify the raw intersection of the two halves. *)
Definition lasso_crosspoint (lasso : list coord) (crosspoint : Geometry)
  : M coord :=
  match crosspoint with
  | GeometryCollection [] =>
      let coordseq := LinearRing_coords lasso in
      emit (new_coords (xs coordseq) (ys coordseq)) ;;; return_
  | GeometryCollection (_ :: _) =>
      emit (ask_redraw 1) ;;; return_
  | _ =>
      match get_intersection_point crosspoint with
      | inr p => ret p
      | inl ValueError => emit (ask_redraw 1) ;;; return_
      | inl e => raise e
      end
  end.

Definition get_lasso_area (lasso : list coord) : M unit :=
  if (length lasso <? 4)%nat then return_
  else
    let (l1, l2) := array_split lasso in
    templine1 <- LineString_init l1 ;;
    templine2 <- LineString_init l2 ;;
    crosspoint <- lasso_crosspoint lasso (intersection K templine1 templine2) ;;
    let crosspoint1 := nearest_points K templine1 crosspoint in
    let crosspoint2 := nearest_points K templine2 crosspoint in
    let split1 := split K templine1 crosspoint1 in
    let split2 := split K templine2 crosspoint2 in
    if (length split1 <? 2)%nat || (length split2 <? 2)%nat then return_
    else
      split1_0 <- item split1 0 ;;
      last1 <- item_last templine1 ;;
      near_seam <-
        (if contains K split1_0 last1 then ret true
         else first2 <- item templine2 0 ;; ret (contains K split1_0 first2)) ;;
      multi <-
        (if (near_seam : bool)
         then a <- item split1 0 ;; b <- item split2 1 ;; ret [a; b]
         else a <- item split1 1 ;; b <- item split2 0 ;; ret [a; b]) ;;
      let coordseq := concat multi in
      firstcoord <- local (match multi with
                           | (c :: _) :: _ => Some c
                           | _ => None
                           end) ;;
      emit (new_coords (xs coordseq ++ [fst firstcoord])
                       (ys coordseq ++ [snd firstcoord])).

(** Lines 1050-1055 and 1064-1069: pick the piece of the first split that
    holds the second crossing and split it again; the [else] branch emits
    and falls through with the variable unassigned. *)
Definition second_split (pieces : list (list coord)) (locus at_ : coord)
  : M (option (list (list coord))) :=
  p0 <- item pieces 0 ;;
  if Qltb (distance K p0 locus) (1 # 10) then ret (Some (split K p0 at_))
  else
    p1 <- item pieces 1 ;;
    if Qltb (distance K p1 locus) (1 # 10) then ret (Some (split K p1 at_))
    else emit (ask_redraw 0) ;;; ret None.

(** Lines 1057-1062: the piece of the gesture bounded by both crossings. *)
Definition kept_subline (split2 : option (list (list coord)))
    (crosspoint1 crosspoint2 : coord) (multi : list (list coord))
  : M (list (list coord)) :=
  s <- local split2 ;;
  s0 <- item s 0 ;;
  if Qltb (distance K s0 crosspoint1) 1 && Qltb (distance K s0 crosspoint2) 1
  then ret (multi ++ [s0])
  else
    s1 <- item s 1 ;;
    if Qltb (distance K s1 crosspoint1) 1 && Qltb (distance K s1 crosspoint2) 1
    then ret (multi ++ [s1])
    else emit (ask_redraw 0) ;;; ret multi.

(** Lines 1071-1078: the arc of the parent that avoids its closing seam. *)
Definition seam_free_arc (split2_old : option (list (list coord)))
    (maincell : list coord) (multi : list (list coord))
  : M (list (list coord)) :=
  s <- local split2_old ;;
  s0 <- item s 0 ;;
  first <- item maincell 0 ;;
  near0 <-
    (if Qltb (distance K s0 first) (1 # 10) then ret true
     else last <- item_last maincell ;;
          ret (Qltb (distance K s0 last) (1 # 10))) ;;
  if (near0 : bool) then s1 <- item s 1 ;; ret (multi ++ [s1])
  else
    s1 <- item s 1 ;;
    first <- item maincell 0 ;;
    near1 <-
      (if Qltb (distance K s1 first) (1 # 10) then ret true
       else last <- item_last maincell ;;
            ret (Qltb (distance K s1 last) (1 # 10))) ;;
    if (near1 : bool) then s0 <- item s 0 ;; ret (multi ++ [s0])
    else emit (ask_redraw 0) ;;; ret multi.

(** Lines 1041-1046: the four nearest vertices go through the resolver. *)
Fixpoint resolve_all (cps : list coord) : M (list coord) :=
  match cps with
  | [] => ret []
  | crosspoint :: rest =>
      match get_intersection_point (Point crosspoint) with
      | inr p => ps <- resolve_all rest ;; ret (p :: ps)
      | inl ValueError => emit (ask_redraw 1) ;;; return_
      | inl e => raise e
      end
  end.

(** Lines 1080-1094: write out the kept sub-line, then the arc in the
    direction that starts nearer to the sub-line's end. *)
Definition stitch (multi : list (list coord)) : M unit :=
  multi_0 <- item multi 0 ;;
  multi_1 <- item multi 1 ;;
  let coordseq := multi_1 in
  tail <- item_last multi_0 ;;
  c_first <- item coordseq 0 ;;
  c_last <- item_last coordseq ;;
  let appended :=
    if Qltb (point_distance K tail c_first) (point_distance K tail c_last)
    then coordseq else rev coordseq in
  emit (new_coords (xs multi_0 ++ xs appended) (ys multi_0 ++ ys appended)).

(** Lines 1030-1094: everything after the crossing-count checks. *)
Definition split_region (maincell newline crosspoint_temp : list coord)
  : M unit :=
  let line_mp := newline in
  let cell1_mp := maincell in
  locus0 <- item crosspoint_temp 0 ;;
  let crosspoint1 := nearest_points K line_mp locus0 in
  let crosspoint1_old := nearest_points K cell1_mp locus0 in
  let split1 := split K newline crosspoint1 in
  let split1_old := split K maincell crosspoint1_old in
  locus1 <- item crosspoint_temp 1 ;;
  let crosspoint2 := nearest_points K line_mp locus1 in
  let crosspoint2_old := nearest_points K cell1_mp locus1 in
  crosspoints <- resolve_all [crosspoint1; crosspoint1_old;
                              crosspoint2; crosspoint2_old] ;;
  match crosspoints with
  | [crosspoint1; crosspoint1_old; crosspoint2; crosspoint2_old] =>
      split2 <- second_split split1 locus1 crosspoint2 ;;
      multi <- kept_subline split2 crosspoint1 crosspoint2 [] ;;
      split2_old <- second_split split1_old crosspoint2_old crosspoint2_old ;;
      multi <- seam_free_arc split2_old maincell multi ;;
      stitch multi
  | _ => raise ValueError
  end.

Definition get_multi_area (lassolist : list coord * list coord) : M unit :=
  let (lassolist_0, lassolist_1) := lassolist in
  if (length lassolist_1 <? 4)%nat then return_
  else
    maincell <- LineString_init lassolist_0 ;;
    newline <- LineString_init lassolist_1 ;;
    if intersects K newline maincell then
      match intersection K maincell newline with
      | MultiPoint crosspoint_temp =>
          if (2 <? length crosspoint_temp)%nat
          then emit (ask_redraw 4) ;;; return_
          else split_region maincell newline crosspoint_temp
      | _ => emit (ask_redraw 2) ;;; return_
      end
    else emit (ask_redraw 2).

End Backend.

(** ** A reference kernel over exact rationals

    An executable instance of [Kernel], used to run the engine on concrete
    gestures.  It follows planar geometry exactly: transversal crossings and
    vertex hits are reported as points, collinear overlaps as runs (one per
    pair of segments), [split] follows [shapely.ops.split] for a point
    splitter, and distances are square roots truncated to 1e-6.

    It is a stand-in for Shapely, not a model of GEOS: the members of a
    [MultiPoint] come in the order of the segments of the first line, while
    GEOS fixes no order; crossings inside a collinear run are not reported
    apart from the run; a line of zero length counts as a point; and loci
    that floating point would keep apart are merged when they are equal as
    rationals.  The general theorems quantify over every kernel; this one
    only supplies concrete runs, and [swap_loci] gives the same runs with
    the loci in the other order. *)

Module Ref.

Definition sub (p q : coord) : coord := (fst p - fst q, snd p - snd q).
Definition cross (u v : coord) : Q := fst u * snd v - snd u * fst v.
Definition dot (u v : coord) : Q := fst u * fst v + snd u * snd v.
Definition sqdist (p q : coord) : Q := dot (sub p q) (sub p q).
Definition Qsgn (q : Q) : Z := Z.sgn (Qnum q).
Definition red (p : coord) : coord := (Qred (fst p), Qred (snd p)).

Definition segments (cs : list coord) : list (coord * coord) :=
  combine cs (tl cs).

(** [p] lies on the closed segment from [a] to [b]. *)
Definition on_seg (a b p : coord) : bool :=
  Qeq_bool (cross (sub b a) (sub p a)) 0 &&
  Qle_bool (dot (sub p a) (sub p b)) 0.

(** The segments cross at a single point interior to both. *)
Definition proper (a b c d : coord) : bool :=
  ((Qsgn (cross (sub b a) (sub c a)) * Qsgn (cross (sub b a) (sub d a)) =? -1)
   && (Qsgn (cross (sub d c) (sub a c)) * Qsgn (cross (sub d c) (sub b c)) =? -1))%Z.

Definition cross_point (a b c d : coord) : coord :=
  let t := cross (sub c a) (sub d c) / cross (sub b a) (sub d c) in
  red (fst a + t * (fst b - fst a), snd a + t * (snd b - snd a)).

Fixpoint dedupe (ps : list coord) : list coord :=
  match ps with
  | [] => []
  | p :: rest => p :: filter (fun q => negb (coord_eqb p q)) (dedupe rest)
  end.

Definition hits (s t : coord * coord) : list coord :=
  let (a, b) := s in
  let (c, d) := t in
  dedupe (filter (on_seg a b) [c; d] ++ filter (on_seg c d) [a; b]).

(** What two segments have in common: nothing, a point, or a run. *)
Definition pair_geom (s t : coord * coord) : list Geometry :=
  match hits s t with
  | [] => if proper (fst s) (snd s) (fst t) (snd t)
          then [Point (cross_point (fst s) (snd s) (fst t) (snd t))]
          else []
  | [p] => [Point p]
  | p :: q :: _ => [LineString [p; q]]
  end.

Definition common (a b : list coord) : list Geometry :=
  flat_map (fun s => flat_map (pair_geom s) (segments b)) (segments a).

Definition points_of (gs : list Geometry) : list coord :=
  dedupe (flat_map (fun g => match g with Point p => [p] | _ => [] end) gs).

Definition runs_of (gs : list Geometry) : list (list coord) :=
  flat_map (fun g => match g with LineString l => [l] | _ => [] end) gs.

Definition classify (pts : list coord) (runs : list (list coord)) : Geometry :=
  match runs, pts with
  | [], [] => GeometryCollection []
  | [], [p] => Point p
  | [], _ :: _ :: _ => MultiPoint pts
  | [l], _ => LineString l
  | _ :: _ :: _, _ => MultiLineString runs
  end.

Definition intersection (a b : list coord) : Geometry :=
  classify (points_of (common a b)) (runs_of (common a b)).

Definition intersects (a b : list coord) : bool :=
  match common a b with
  | [] => false
  | _ :: _ => true
  end.

Definition closed (cs : list coord) : bool :=
  match cs, rev cs with
  | first :: _, last :: _ => coord_eqb first last
  | _, _ => false
  end.

Definition on_line (cs : list coord) (p : coord) : bool :=
  existsb (fun s => on_seg (fst s) (snd s) p) (segments cs).

Definition boundary (cs : list coord) (p : coord) : bool :=
  if closed cs then false
  else match cs, rev cs with
       | first :: _, last :: _ => coord_eqb p first || coord_eqb p last
       | _, _ => false
       end.

Definition interior (cs : list coord) (p : coord) : bool :=
  on_line cs p && negb (boundary cs p).

(** The loop of [_split_line_with_point]: the first segment reached by
    the splitter decides, at its end vertex or strictly inside. *)
Fixpoint cut (pre cs : list coord) (p : coord)
  : option (list coord * list coord) :=
  match cs with
  | c1 :: rest =>
      match rest with
      | c2 :: _ =>
          if coord_eqb p c2 then Some (pre ++ [c1; c2], rest)
          else if on_seg c1 c2 p then Some (pre ++ [c1; p], p :: rest)
          else cut (pre ++ [c1]) rest p
      | [] => None
      end
  | [] => None
  end.

Definition split (cs : list coord) (p : coord) : list (list coord) :=
  if negb (interior cs p) then [cs]
  else match cs with
       | first :: _ =>
           if coord_eqb first p then [cs]
           else match cut [] cs p with
                | Some (l, r) => [l; r]
                | None => [cs]
                end
       | [] => [cs]
       end.

Definition nearest_points (cs : list coord) (p : coord) : coord :=
  match cs with
  | [] => p
  | c :: rest =>
      fold_left (fun best c' =>
                   if Qltb (sqdist c' p) (sqdist best p) then c' else best)
                rest c
  end.

Definition sqrt6 (q : Q) : Q :=
  Qred (Qmake (Z.sqrt (Qfloor (q * inject_Z (10 ^ 12)))) (1000000)).

Definition seg_sqdist (a b p : coord) : Q :=
  let d := sub b a in
  let len2 := dot d d in
  if Qeq_bool len2 0 then sqdist p a
  else
    let t := dot (sub p a) d / len2 in
    let t := if Qle_bool t 0 then 0 else if Qle_bool 1 t then 1 else t in
    Qred (sqdist p (fst a + t * fst d, snd a + t * snd d)).

Definition line_sqdist (cs : list coord) (p : coord) : Q :=
  match cs with
  | [] => 0
  | [c] => sqdist p c
  | _ =>
      match map (fun s => seg_sqdist (fst s) (snd s) p) (segments cs) with
      | [] => 0
      | d :: ds => fold_left (fun m d' => if Qltb d' m then d' else m) ds d
      end
  end.

Definition distance (cs : list coord) (p : coord) : Q :=
  sqrt6 (line_sqdist cs p).

Definition point_distance (p q : coord) : Q := sqrt6 (sqdist p q).

Definition contains (cs : list coord) (p : coord) : bool := interior cs p.

Definition kernel : Kernel :=
  Build_Kernel intersection intersects split nearest_points distance
               point_distance contains.

End Ref.

Definition pt (x y : Z) : coord := (inject_Z x, inject_Z y).
Definition square : list coord := [pt 0 0; pt 10 0; pt 10 10; pt 0 10].
Definition square_ring : list coord := square ++ [pt 0 0].

(** ** The canvas: [Object] records and the slots wired to the engine

    [Backend.new_coords] is connected to [MplCanvas.draw_object]; both
    [ask_redraw] signals are connected to [MainWindow.ask_redraw], whose
    first statement is [self.mpl_widget.remove_object()].  An object refers
    to its parent by position in the object table. *)

Record Object : Type := {
  obj_x : option (list Q);
  obj_y : option (list Q);
  obj_parent : option nat
}.

Record Canvas : Type := {
  objects : list Object;
  currentObject : nat
}.

Fixpoint update {A} (l : list A) (i : nat) (f : A -> A) : list A :=
  match l, i with
  | [], _ => []
  | a :: l', O => f a :: l'
  | a :: l', S i' => a :: update l' i' f
  end.

(** [self.currentObject.x = x; self.currentObject.y = y]. *)
Definition set_xy (c : Canvas) (x y : option (list Q)) : Canvas :=
  {| objects := update (objects c) (currentObject c)
                  (fun o => {| obj_x := x; obj_y := y;
                               obj_parent := obj_parent o |});
     currentObject := currentObject c |}.

Definition draw_object (c : Canvas) (x y : list Q) : Canvas :=
  set_xy c (Some x) (Some y).

Definition remove_object (c : Canvas) : Canvas := set_xy c None None.

(** The slot a signal of the engine or of the canvas ends in. *)
Definition slot (c : Canvas) (sg : signal) : Canvas :=
  match sg with
  | new_coords x y => draw_object c x y
  | ask_redraw _ => remove_object c
  end.

(** Lines 1192-1196: [(x[n], y[n])] for [n in range(len(x))]. *)
Fixpoint zip_xy (x y : list Q) : exn + list coord :=
  match x, y with
  | [], _ => inr []
  | _ :: _, [] => inl IndexError
  | a :: x', b :: y' =>
      match zip_xy x' y' with
      | inl e => inl e
      | inr l => inr ((a, b) :: l)
      end
  end.

Definition mainobject_of (x y : option (list Q)) : exn + list coord :=
  match x, y with
  | None, _ => inl TypeError
  | Some [], _ => inr []
  | Some (_ :: _), None => inl TypeError
  | Some x, Some y => zip_xy x y
  end.

(** What [onselect] hands to the engine thread. *)
Inductive request : Type :=
| lasso_drawn (verts : list coord)
| multi_drawn (lassolist : list coord * list coord).

(** [MplCanvas.onselect]: the request sent to the engine, the canvas after
    the raw vertices have been stored on the current object, and the
    canvas's own [ask_redraw] emissions. *)
Definition onselect (c : Canvas) (verts : list coord)
  : Canvas * list request * list signal :=
  match nth_error (objects c) (currentObject c) with
  | None => (c, [], [])
  | Some cur =>
      let stored := draw_object (set_xy c (Some (xs verts)) (Some (ys verts)))
                                (xs verts) (ys verts) in
      match obj_parent cur with
      | None => (stored, [lasso_drawn verts], [])
      | Some p =>
          match nth_error (objects c) p with
          | None => (c, [], [])
          | Some par =>
              match mainobject_of (obj_x par) (obj_y par) with
              | inr mainobject => (stored, [multi_drawn (mainobject, verts)], [])
              | inl TypeError => (stored, [], [ask_redraw 3])
              | inl _ => (c, [], [])
              end
          end
      end
  end.

Section Session.
Variable K : Kernel.

(** The signals the engine sends back for a request. *)
Definition serve (r : request) : list signal :=
  match r with
  | lasso_drawn verts => emitted (run (get_lasso_area K verts))
  | multi_drawn lassolist => emitted (run (get_multi_area K lassolist))
  end.

Definition replies (c : Canvas) (verts : list coord) : list signal :=
  let '(_, reqs, own) := onselect c verts in own ++ flat_map serve reqs.

(** One drag: [onselect], then every signal it caused reaches its slot. *)
Definition gesture_round (c : Canvas) (verts : list coord) : Canvas :=
  let '(stored, _, _) := onselect c verts in
  fold_left slot (replies c verts) stored.

End Session.

Definition is_reject (sg : signal) : bool :=
  match sg with ask_redraw _ => true | new_coords _ _ => false end.
Definition is_curve (sg : signal) : bool :=
  match sg with new_coords _ _ => true | ask_redraw _ => false end.

(** ** [Sample.get_segmentation]: the zoom window of a detected region

    Lines 863-889 pad the bounding box [(min_row, min_col, max_row,
    max_col)] of a region by [zoom_buffer] inside an image of shape
    [(shape0, shape1)]; [Object.set_zoom] reorders the result into the axis
    limits [[xmin, xmax, ymin, ymax]].  The box is an integer array; its
    entries are embedded as unbounded integers. *)

Definition zoom_buffer : Z := 50.

(** Lines 865-876 for rows, 878-889 for columns: one axis of the box. *)
Definition pad_axis (shape : Z) (lo hi : Z) : Z * Z :=
  let (lo, hi) :=
    if (lo - zoom_buffer >=? 0)%Z then ((lo - zoom_buffer)%Z, hi)
    else (0%Z, (hi + (zoom_buffer - lo))%Z) in
  if (hi + zoom_buffer <=? shape)%Z then (lo, (hi + zoom_buffer)%Z)
  else ((lo - (zoom_buffer - ((shape + zoom_buffer) - shape)))%Z, shape).

Definition pad_bbox (shape0 shape1 : Z) (bbox : Z * Z * Z * Z) : Z * Z * Z * Z :=
  let '(b0, b1, b2, b3) := bbox in
  let (b0, b2) := pad_axis shape0 b0 b2 in
  let (b1, b3) := pad_axis shape1 b1 b3 in
  (b0, b1, b2, b3).

(** [Object.set_zoom]. *)
Definition set_zoom (bbox : Z * Z * Z * Z) : list Z :=
  let '(b0, b1, b2, b3) := bbox in [b1; b3; b0; b2].

(** The zoom window stored on the object of a detected region. *)
Definition region_zoom (shape0 shape1 : Z) (bbox : Z * Z * Z * Z) : list Z :=
  set_zoom (pad_bbox shape0 shape1 bbox).

(** ** [TreeItem] and the class list of [ItemModel]

    An item's data is the tuple [("",)] for a root and a list of cells for
    the rows made by [insertChildren]; a cell is [None] or a string.  The
    parent pointer is not part of the embedding. *)

Definition cell : Type := option String.string.

Inductive ItemData : Type :=
| TupleData (cells : list cell)
| ListData (cells : list cell).

Definition cells_of (d : ItemData) : list cell :=
  match d with TupleData c => c | ListData c => c end.

Inductive TreeItem : Type :=
| Node (itemData : ItemData) (childItems : list TreeItem).

Definition itemData (t : TreeItem) : ItemData := let (d, _) := t in d.
Definition childItems (t : TreeItem) : list TreeItem := let (_, c) := t in c.

(** The position [seq[i]] reads, with Python's negative indices. *)
Definition py_position {A} (l : list A) (i : Z) : option nat :=
  let n := Z.of_nat (length l) in
  if ((0 <=? i) && (i <? n))%Z then Some (Z.to_nat i)
  else if ((- n <=? i) && (i <? 0))%Z then Some (Z.to_nat (n + i))
  else None.

Definition py_item {A} (l : list A) (i : Z) : exn + A :=
  match py_position l i with
  | Some k => match nth_error l k with Some a => inr a | None => inl IndexError end
  | None => inl IndexError
  end.

(** [str(n)] of an integer. *)
Definition py_str (n : Z) : String.string :=
  DecimalString.NilZero.string_of_int (Z.to_int n).

Definition child (t : TreeItem) (row : Z) : exn + TreeItem := py_item (childItems t) row.
Definition childCount (t : TreeItem) : Z := Z.of_nat (length (childItems t)).
Definition columnCount (t : TreeItem) : Z := Z.of_nat (length (cells_of (itemData t))).
Definition data (t : TreeItem) (column : Z) : exn + cell :=
  py_item (cells_of (itemData t)) column.

(** [list.insert(position, item)] and [list.pop(position)] for a position
    that is not negative. *)
Definition list_insert {A} (position : nat) (item : A) (l : list A) : list A :=
  firstn position l ++ item :: skipn position l.

Definition list_pop {A} (position : nat) (l : list A) : exn + list A :=
  if (position <? length l)%nat
  then inr (firstn position l ++ skipn (S position) l)
  else inl IndexError.

(** [TreeItem([None for v in range(columns)], self)]. *)
Definition blank_row (columns : Z) : TreeItem :=
  Node (ListData (repeat None (Z.to_nat columns))) [].

Definition insertChildren (t : TreeItem) (position count columns : Z)
  : bool * TreeItem :=
  if ((position <? 0) || (Z.of_nat (length (childItems t)) <? position))%Z
  then (false, t)
  else (true,
        Node (itemData t)
             (Nat.iter (Z.to_nat count)
                       (list_insert (Z.to_nat position) (blank_row columns))
                       (childItems t))).

Fixpoint pop_rows {A} (count position : nat) (l : list A) : exn + list A :=
  match count with
  | O => inr l
  | S count' =>
      match list_pop position l with
      | inl e => inl e
      | inr l' => pop_rows count' position l'
      end
  end.

Definition removeChildren (t : TreeItem) (position count : Z)
  : exn + bool * TreeItem :=
  if ((position <? 0) || (Z.of_nat (length (childItems t)) <? position + count))%Z
  then inr (false, t)
  else match pop_rows (Z.to_nat count) (Z.to_nat position) (childItems t) with
       | inl e => inl e
       | inr l => inr (true, Node (itemData t) l)
       end.

(** [self.itemData[column] = value]: a tuple refuses the assignment. *)
Definition setData (t : TreeItem) (column : Z) (value : cell)
  : exn + bool * TreeItem :=
  if ((column <? 0) || (Z.of_nat (length (cells_of (itemData t))) <=? column))%Z
  then inr (false, t)
  else match itemData t with
       | TupleData _ => inl TypeError
       | ListData cells =>
           inr (true, Node (ListData (update cells (Z.to_nat column) (fun _ => value)))
                           (childItems t))
       end.

(** [t.child(row).setData(column, value)]: the row is changed in place. *)
Definition child_setData (t : TreeItem) (row column : Z) (value : cell)
  : exn + TreeItem :=
  match py_position (childItems t) row with
  | None => inl IndexError
  | Some k =>
      match nth_error (childItems t) k with
      | None => inl IndexError
      | Some c =>
          match setData c column value with
          | inl e => inl e
          | inr (_, c') =>
              inr (Node (itemData t) (update (childItems t) k (fun _ => c')))
          end
      end
  end.

(** [ItemModel.__init__]: [self.rootItem = TreeItem(("",))]. *)
Definition new_rootItem : TreeItem := Node (TupleData [Some String.EmptyString]) [].

(** One more row at the end, named [name]: the two statements shared by
    [setupModelData] and [add_class]. *)
Definition append_row (rootItem : TreeItem) (name : TreeItem -> String.string)
  : exn + TreeItem :=
  let (_, rootItem) :=
    insertChildren rootItem (childCount rootItem) 1 (columnCount rootItem) in
  child_setData rootItem (childCount rootItem - 1) 0 (Some (name rootItem)).



(** [ItemModel.add_class] and [ItemModel.remove_class] of the list model. *)
Definition ItemModel_add_class (rootItem : TreeItem) : exn + TreeItem :=
  append_row rootItem
    (fun rootItem => String.append "Class "%string (py_str (childCount rootItem))).

Definition ItemModel_remove_class (rootItem : TreeItem) : exn + TreeItem :=
  match child rootItem (-1) with
  | inl e => inl e
  | inr _ =>
      match removeChildren rootItem (childCount rootItem - 1) 1 with
      | inl e => inl e
      | inr (_, rootItem') => inr rootItem'
      end
  end.

(** ** Class bookkeeping of [VisionGui] and [Data] *)

Record Gui : Type := {
  has_image : bool;      (* [self.currentImage is not None] *)
  max_class : Z;         (* [self.data.max_class] *)
  listmodel : TreeItem;  (* [self.data.listmodel.rootItem] *)
  colormap_n : Z         (* the number of colours of [mpl_widget.colormap] *)
}.

Inductive upchange : Type :=
| UpTrue
| UpFalse
| UpInt (n : Z).

Definition with_max_class (g : Gui) (m : Z) : Gui :=
  {| has_image := has_image g; max_class := m; listmodel := listmodel g;
     colormap_n := colormap_n g |}.

Definition with_listmodel (g : Gui) (t : TreeItem) : Gui :=
  {| has_image := has_image g; max_class := max_class g; listmodel := t;
     colormap_n := childCount t |}.

(** [VisionGui.add_class] and [VisionGui.remove_class]; their calls of
    [Data.set_class_max] take its [True] and [False] branches. *)
Definition add_class (g : Gui) (internal : bool) : exn + Gui :=
  if negb (has_image g) && negb internal then inr g
  else
    let g := with_max_class g (max_class g + 1) in
    match ItemModel_add_class (listmodel g) with
    | inl e => inl e
    | inr t => inr (with_listmodel g t)
    end.

Definition remove_class (g : Gui) (internal : bool) : exn + Gui :=
  if ((childCount (listmodel g) =? 1)%Z || negb (has_image g)) && negb internal
  then inr g
  else
    let g := with_max_class g (max_class g - 1) in
    match ItemModel_remove_class (listmodel g) with
    | inl e => inl e
    | inr t => inr (with_listmodel g t)
    end.

Fixpoint repeat_gui (n : nat) (f : Gui -> exn + Gui) (g : Gui) : exn + Gui :=
  match n with
  | O => inr g
  | S n' => match f g with inl e => inl e | inr g' => repeat_gui n' f g' end
  end.

(** [VisionGui.change_class_n], the slot of [Data.class_n_changed]. *)
Definition change_class_n (g : Gui) (change : Z) : exn + Gui :=
  if (change >? 0)%Z
  then repeat_gui (Z.to_nat (Z.abs change)) (fun g => remove_class g true) g
  else repeat_gui (Z.to_nat (Z.abs change)) (fun g => add_class g true) g.

(** [Data.set_class_max], with the slot of the signal it emits. *)
Definition set_class_max (g : Gui) (u : upchange) : exn + Gui :=
  match u with
  | UpTrue => inr (with_max_class g (max_class g + 1))
  | UpFalse => inr (with_max_class g (max_class g - 1))
  | UpInt n =>
      let change := (max_class g - n)%Z in
      change_class_n (with_max_class g n) change
  end.

(** [init_class_n] and the session [VisionGui.__init__] starts with. *)
Definition init_class_n : Z := 2.

(** ** [Data.export_labels]: which outlines are drawn into the label image

    Line 684: an object's outline is drawn only when it has coordinates and
    more than five of them; otherwise the pre-segmented region, if any, is
    used. *)
Definition outline_exported (o : Object) : bool :=
  match obj_x o with
  | Some x => (5 <? length x)%nat
  | None => false
  end.

(** ** [VisionGui.move_class_up] and [move_class_down]

    Both look the neighbouring class up with [listmodel.index(row, 0,
    'rootparent')], which reads [rootItem.child(row)], and store the row of
    that index as the object's class. *)
Definition index_rootparent (rootItem : TreeItem) (row : Z) : exn + Z :=
  match child rootItem row with
  | inl e => inl e
  | inr _ => inr row
  end.

Definition move_class_up (rootItem : TreeItem) (curr_class : Z) : exn + Z :=
  if (curr_class =? 0)%Z then inr curr_class
  else index_rootparent rootItem (curr_class - 1).

Definition move_class_down (rootItem : TreeItem) (curr_class : Z) : exn + Z :=
  if (curr_class =? childCount rootItem - 1)%Z then inr curr_class
  else index_rootparent rootItem (curr_class + 1).

(** * Vocabulary of the statements *)

Definition integral (p : coord) : Prop :=
  exists a b : Z, p = (inject_Z a, inject_Z b).

(** The value the resolver computes for a cluster: the rounded mean of the
    individually rounded members. *)
Definition rounded_mean (ps : list coord) : coord :=
  (np_round (np_mean (map fst (np_round_rows ps))),
   np_round (np_mean (map snd (np_round_rows ps)))).

Definition within_1px (first p : coord) : Prop :=
  Qabs (fst p - fst first) <= 1 /\ Qabs (snd p - snd first) <= 1.

Definition round_coord (c : coord) : coord := (np_round (fst c), np_round (snd c)).

(** Exact arithmetic, for the statements: the sum and the arithmetic mean
    of a list of numbers. *)
Definition Qsum (l : list Q) : Q := fold_right Qplus 0 l.
Definition Zsum (zs : list Z) : Z := fold_right Z.add 0%Z zs.
Definition mean (l : list Q) : Q := Qsum l / inject_Z (Z.of_nat (length l)).


(** [k] is [q] rounded to the nearest integer, a tie going to the even
    one. *)
Definition nearest_even (q : Q) (k : Z) : Prop :=
  Qabs (inject_Z k - q) <= 1 # 2 /\
  (Qabs (inject_Z k - q) == 1 # 2 -> Z.even k = true).

(** [p] is the rounded component-wise mean of the cluster [ps]. *)
Definition is_rounded_mean (ps : list coord) (p : coord) : Prop :=
  exists kx ky,
    p = (inject_Z kx, inject_Z ky) /\
    nearest_even (mean (map fst ps)) kx /\
    nearest_even (mean (map snd ps)) ky.

(** [k] is the rounded mean of the values of [l], each rounded first. *)
Definition rounded_mean_of_rounded (l : list Q) (k : Z) : Prop :=
  exists rs : list Z,
    Forall2 nearest_even l rs /\ nearest_even (mean (map inject_Z rs)) k.

(** [p] is the rounded component-wise mean of the individually rounded
    members of the cluster [ps]. *)
Definition resolves_to (ps : list coord) (p : coord) : Prop :=
  exists kx ky,
    p = (inject_Z kx, inject_Z ky) /\
    rounded_mean_of_rounded (map fst ps) kx /\
    rounded_mean_of_rounded (map snd ps) ky.


(** The coordinates of the cluster are at most [B] in magnitude, and [B]
    times the number of members stays below [2 ^ 52]: the range in which
    the sums of rounded coordinates are doubles. *)
Definition in_range (B : Z) (ps : list coord) : Prop :=
  Forall (fun c => Qabs (fst c) <= inject_Z B /\ Qabs (snd c) <= inject_Z B) ps /\
  (Z.of_nat (length ps) * B < 2 ^ 52)%Z.



(** The resolved point, computed with exact sums. *)
Definition exact_axis (l : list Q) : Z :=
  np_round_Z (mean (map inject_Z (map np_round_Z l))).
Definition exact_resolution (ps : list coord) : coord :=
  (inject_Z (exact_axis (map fst ps)), inject_Z (exact_axis (map snd ps))).

(** C9 in the words of the specification: any permutation of a cluster
    within tolerance resolves to the rounded mean of the cluster. *)
Definition spec_order_independent : Prop :=
  forall first rest ps',
    Forall (within_1px first) rest ->
    Permutation (first :: rest) ps' ->
    exists p,
      get_intersection_point (MultiPoint ps') = inr p /\
      is_rounded_mean (first :: rest) p.

(** A cluster within tolerance whose coordinates are out of range, and
    the same members in another order. *)
Definition far_cluster : list coord :=
  [pt (2 ^ 52 - 3) 0; pt (2 ^ 52 - 2) 0; pt (2 ^ 52 - 2) 0; pt (2 ^ 52 - 3) 0].
Definition far_cluster_reordered : list coord :=
  [pt (2 ^ 52 - 2) 0; pt (2 ^ 52 - 3) 0; pt (2 ^ 52 - 3) 0; pt (2 ^ 52 - 2) 0].


(** A reject code was reported; a curve was emitted. *)
Definition rejected (s : list signal) : bool := existsb is_reject s.
Definition produced (s : list signal) : bool := existsb is_curve s.

(** GEOS reports a lone crossing as a [Point]: a [MultiPoint] has at least
    two members. *)
Definition multipoint_has_two (K : Kernel) : Prop :=
  forall a b ps, intersection K a b = MultiPoint ps -> (2 <= length ps)%nat.

(** Soundness of an empty intersection: two lines whose intersection is
    empty share no vertex. *)
Definition empty_means_disjoint (K : Kernel) : Prop :=
  forall a b,
    (2 <= length a)%nat -> (2 <= length b)%nat ->
    intersection K a b = GeometryCollection [] ->
    forall p q, In p a -> In q b -> coord_eqb p q = false.

(** Concrete parents and gestures. *)
Definition notched_square : list coord :=
  [pt 0 0; pt 3 0; pt 10 0; pt 10 10; pt 3 10; pt 0 10; pt 0 0].
Definition crossing_line : list coord :=
  [pt 2 (-3); pt 2 (-1); pt 2 11; pt 2 13].
Definition corner_cut : list coord :=
  [pt 12 8; pt 9 8; pt 8 9; pt 8 12].

(** GEOS does not fix the order of the members of a [MultiPoint]: the
    same kernel with the loci reported the other way round. *)
Definition swap_loci (K : Kernel) : Kernel :=
  {| intersection := fun a b =>
       match intersection K a b with
       | MultiPoint ps => MultiPoint (rev ps)
       | g => g
       end;
     intersects := intersects K;
     split := split K;
     nearest_points := nearest_points K;
     distance := distance K;
     point_distance := point_distance K;
     contains := contains K |}.

(** A session with a parent outline and a child that already holds one. *)
Definition parent_object : Object :=
  {| obj_x := Some (xs notched_square); obj_y := Some (ys notched_square);
     obj_parent := None |}.
Definition child_object : Object :=
  {| obj_x := Some (xs square); obj_y := Some (ys square); obj_parent := Some 0%nat |}.
Definition session : Canvas :=
  {| objects := [parent_object; child_object]; currentObject := 1 |}.
Definition far_gesture : list coord := [pt 20 20; pt 21 20; pt 21 21; pt 20 21].

(** An object after [remove_object]. *)
Definition cleared (o : Object) : Object :=
  {| obj_x := None; obj_y := None; obj_parent := obj_parent o |}.

(** A coordinate list whose last entry equals its first, numerically. *)
Definition closes (l : list Q) : bool :=
  match l, rev l with
  | first :: _, last :: _ => Qeq_bool first last
  | _, _ => false
  end.

(** The reject codes the split slot can report. *)
Definition split_signal (sg : signal) : bool :=
  match sg with
  | new_coords _ _ => true
  | ask_redraw case => (case =? 0)%Z || (case =? 2)%Z || (case =? 4)%Z
  end.

(** Later GEOS releases report an empty line intersection as an empty
    [LineString] instead of an empty collection: the same kernel with that
    convention. *)
Definition empty_as_linestring (K : Kernel) : Kernel :=
  {| intersection := fun a b =>
       match intersection K a b with
       | GeometryCollection [] => LineString []
       | g => g
       end;
     intersects := intersects K;
     split := split K;
     nearest_points := nearest_points K;
     distance := distance K;
     point_distance := point_distance K;
     contains := contains K |}.

(** The pieces of a line split at one point and then again at another. *)
Definition twice_split (K : Kernel) (line : list coord) (first second : coord)
  : list (list coord) :=
  flat_map (fun piece => split K piece second) (split K line first).

(** [MplCanvas.set_object]: another object becomes the current one. *)
Definition set_object (c : Canvas) (currentObject : nat) : Canvas :=
  {| objects := objects c; currentObject := currentObject |}.

(** The object after [onselect] has stored the raw vertices on it. *)
Definition traced (o : Object) (verts : list coord) : Object :=
  {| obj_x := Some (map fst verts); obj_y := Some (map snd verts);
     obj_parent := obj_parent o |}.

(** A session whose parent object has not been drawn yet. *)
Definition undrawn_object : Object :=
  {| obj_x := None; obj_y := None; obj_parent := None |}.

(** A session in which the parent is current and still to be drawn. *)
Definition fresh_session : Canvas :=
  {| objects := [undrawn_object; child_object]; currentObject := 0 |}.

(** The rows and the root of a class list with [n] classes. *)
Definition class_row (k : nat) : TreeItem :=
  Node (ListData
          [Some (String.append "Class "%string
                   (DecimalString.NilZero.string_of_int (Z.to_int (Z.of_nat k))))])
       [].
Definition class_rows (n : nat) : list TreeItem := map class_row (seq 1 n).
Definition class_root (n : nat) : TreeItem :=
  Node (TupleData [Some String.EmptyString]) (class_rows n).

(** The class list and the class counter agree on [n] classes. *)
Definition classes_agree (g : Gui) (n : nat) : Prop :=
  listmodel g = class_root n /\ max_class g = Z.of_nat n /\
  colormap_n g = Z.of_nat n.

(** * Properties *)

(** ** The resolver *)

Lemma Qabs_gtb_self (a : Q) : Qabs_gtb (a - a) 1 = false.
Proof.
  unfold Qabs_gtb. apply negb_false_iff, Qle_bool_iff.
  assert (E : a - a == 0) by ring.
  rewrite E. discriminate.
Qed.

Lemma resolve_rows_nonempty (p : coord) (ps : list coord) :
  resolve_rows (p :: ps) = inr (rounded_mean (p :: ps)).
Proof.
  unfold resolve_rows, rounded_mean. cbn [np_round_rows map fst snd].
  now rewrite !Qabs_gtb_self.
Qed.

Lemma resolve_rows_value (ps : list coord) (p : coord) :
  resolve_rows ps = inr p -> p = rounded_mean ps.
Proof.
  destruct ps as [|q ps]; [discriminate|].
  rewrite resolve_rows_nonempty. congruence.
Qed.

Example resolver_point : get_intersection_point (Point (2 # 5, 0)) = inr (2 # 5, 0).
Proof. reflexivity. Qed.

Example resolver_cluster :
  get_intersection_point (MultiPoint [(2 # 5, 0); (7 # 5, 0)]) = inr (0, 0).
Proof. vm_compute. reflexivity. Qed.

Example resolver_far :
  get_intersection_point (MultiPoint [(0, 0); (50, 0)]) = inr (inject_Z 25, inject_Z 0).
Proof. vm_compute. reflexivity. Qed.

Lemma rounded_mean_integral (ps : list coord) : integral (rounded_mean ps).
Proof. unfold rounded_mean, np_round, integral. eauto. Qed.

#[local] Instance np_round_Z_compat : Proper (Qeq ==> eq) np_round_Z.
Proof.
  intros a b E. unfold np_round_Z.
  rewrite (Qfloor_comp _ _ E).
  assert (E' : a - inject_Z (Qfloor b) == b - inject_Z (Qfloor b)) by now rewrite E.
  now rewrite (Qcompare_comp _ _ E' (1 # 2) (1 # 2) (Qeq_refl _)).
Qed.

Lemma np_round_error (q : Q) : Qabs (np_round q - q) <= 1 # 2.
Proof.
  unfold np_round, np_round_Z.
  pose proof (Qfloor_le q) as Lo. pose proof (Qlt_floor q) as Hi.
  rewrite inject_Z_plus in Hi. change (inject_Z 1) with 1 in Hi.
  apply Qabs_Qle_condition.
  destruct (Qcompare_spec (q - inject_Z (Qfloor q)) (1 # 2)) as [E|E|E].
  - destruct (Z.even (Qfloor q)); [|rewrite inject_Z_plus; change (inject_Z 1) with 1];
      split; lra.
  - split; lra.
  - rewrite inject_Z_plus. change (inject_Z 1) with 1. split; lra.
Qed.

Lemma np_round_integer (z : Z) : np_round (inject_Z z) = inject_Z z.
Proof.
  unfold np_round, np_round_Z. rewrite Qfloor_Z.
  assert (E : Qcompare (inject_Z z - inject_Z z) (1 # 2) = Lt).
  { rewrite <- Qlt_alt. assert (Z0 : inject_Z z - inject_Z z == 0) by ring.
    rewrite Z0. reflexivity. }
  now rewrite E.
Qed.

(** *** [float64] arithmetic on telling inputs *)

Example binary64_tenth :
  binary64 (1 # 10) == 3602879701896397 # 36028797018963968.
Proof. vm_compute. reflexivity. Qed.

Example binary64_tie_to_even :
  binary64 (inject_Z (2 ^ 53 + 1)) == inject_Z (2 ^ 53) /\
  binary64 (inject_Z (2 ^ 53 + 3)) == inject_Z (2 ^ 53 + 4).
Proof. split; vm_compute; reflexivity. Qed.

Example float_add_not_associative :
  float_add (float_add (inject_Z (2 ^ 53)) 1) 1 == inject_Z (2 ^ 53) /\
  float_add (inject_Z (2 ^ 53)) (float_add 1 1) == inject_Z (2 ^ 53 + 2).
Proof. split; vm_compute; reflexivity. Qed.

(** *** Powers of two and the binary logarithm *)

Lemma two_power_pos (e : Z) : 0 < 2 ^ e.
Proof. apply Qpower_0_lt. reflexivity. Qed.

Lemma two_power_Z (n : Z) : (0 <= n)%Z -> 2 ^ n == inject_Z (2 ^ n).
Proof. intros H. now rewrite Zpower_Qpower. Qed.

Lemma two_power_le (n m : Z) : (n <= m)%Z -> 2 ^ n <= 2 ^ m.
Proof. intros H. apply Qpower_le_compat_l; [exact H | discriminate]. Qed.

(** [2 ^ Qlog2 q] is a lower bound of [|q|]. *)
Lemma Qlog2_le (q : Q) : ~ q == 0 -> 2 ^ Qlog2 q <= Qabs q.
Proof.
  intros N. unfold Qlog2.
  set (a := Z.abs (Qnum q)). set (b := Zpos (Qden q)).
  destruct (Qle_bool (2 ^ (Z.log2 a - Z.log2 b)) (Qabs q)) eqn:E.
  - now apply Qle_bool_iff.
  - assert (Pa : (0 < a)%Z).
    { unfold a. destruct q as [n d]. unfold Qeq in N. cbn in *. lia. }
    assert (Pb : (0 < b)%Z) by (unfold b; lia).
    destruct (Z.log2_spec a Pa) as [La _].
    destruct (Z.log2_spec b Pb) as [_ Ub].
    pose proof (Z.log2_nonneg a) as Na. pose proof (Z.log2_nonneg b) as Nb.
    replace (Z.log2 a - Z.log2 b - 1)%Z with (Z.log2 a + - Z.succ (Z.log2 b))%Z by lia.
    rewrite Qpower_plus by discriminate.
    rewrite Qpower_opp, !two_power_Z by lia.
    assert (A : Qabs q == inject_Z a / inject_Z b).
    { destruct q as [n d]. unfold a, b. cbn [Qnum Qden Qabs].
      unfold Qeq, Qdiv, Qmult, Qinv, inject_Z. cbn. lia. }
    rewrite A.
    assert (P2 : 0 < inject_Z (2 ^ Z.succ (Z.log2 b))).
    { change 0 with (inject_Z 0). rewrite <- Zlt_Qlt. lia. }
    assert (PB : 0 < inject_Z b).
    { change 0 with (inject_Z 0). now rewrite <- Zlt_Qlt. }
    apply Qle_shift_div_l; [exact PB|].
    unfold Qdiv. rewrite <- Qmult_assoc, (Qmult_comm (/ _)), Qmult_assoc.
    apply Qle_shift_div_r; [exact P2|].
    rewrite <- !inject_Z_mult, <- Zle_Qle. nia.
Qed.

(** [|q|] stays below the next power of two: [Qlog2] is the floor of the
    binary logarithm. *)
Lemma Qlog2_lt (q : Q) : ~ q == 0 -> Qabs q < 2 ^ (Qlog2 q + 1).
Proof.
  intros N. unfold Qlog2.
  set (a := Z.abs (Qnum q)). set (b := Zpos (Qden q)).
  destruct (Qle_bool (2 ^ (Z.log2 a - Z.log2 b)) (Qabs q)) eqn:E.
  - assert (Pa : (0 < a)%Z).
    { unfold a. destruct q as [n d]. unfold Qeq in N. cbn in *. lia. }
    assert (Pb : (0 < b)%Z) by (unfold b; lia).
    destruct (Z.log2_spec a Pa) as [_ Ua].
    destruct (Z.log2_spec b Pb) as [Lb _].
    pose proof (Z.log2_nonneg a) as Na. pose proof (Z.log2_nonneg b) as Nb.
    replace (Z.log2 a - Z.log2 b + 1)%Z with (Z.succ (Z.log2 a) + - Z.log2 b)%Z by lia.
    rewrite Qpower_plus by discriminate.
    rewrite Qpower_opp, !two_power_Z by lia.
    assert (A : Qabs q == inject_Z a / inject_Z b).
    { destruct q as [n d]. unfold a, b. cbn [Qnum Qden Qabs].
      unfold Qeq, Qdiv, Qmult, Qinv, inject_Z. cbn. lia. }
    rewrite A.
    assert (P2 : 0 < inject_Z (2 ^ Z.log2 b)).
    { change 0 with (inject_Z 0). rewrite <- Zlt_Qlt. lia. }
    assert (PB : 0 < inject_Z b).
    { change 0 with (inject_Z 0). now rewrite <- Zlt_Qlt. }
    apply Qlt_shift_div_r; [exact PB|].
    unfold Qdiv. rewrite <- Qmult_assoc, (Qmult_comm (/ _)), Qmult_assoc.
    apply Qlt_shift_div_l; [exact P2|].
    rewrite <- !inject_Z_mult, <- Zlt_Qlt. nia.
  - replace (Z.log2 a - Z.log2 b - 1 + 1)%Z with (Z.log2 a - Z.log2 b)%Z by lia.
    apply Qnot_le_lt. intros H. apply Qle_bool_iff in H. congruence.
Qed.

(** *** The double nearest to a rational *)

Lemma ulp_exponent_le (q : Q) (k : Z) :
  ~ q == 0 -> Qabs q < 2 ^ (k + 53) -> (-1074 <= k)%Z -> (ulp_exponent q <= k)%Z.
Proof.
  intros N U K. unfold ulp_exponent.
  destruct (Z.le_gt_cases (Qlog2 q) (k + 52)) as [L|G]; [lia|].
  exfalso. pose proof (Qlog2_le N) as B.
  assert (M : 2 ^ (k + 53) <= 2 ^ Qlog2 q) by (apply two_power_le; lia).
  lra.
Qed.

Lemma ulp_size (q : Q) :
  ~ q == 0 ->
  2 ^ ulp_exponent q * 2 ^ 52 <= Qabs q \/ ulp_exponent q = (-1074)%Z.
Proof.
  intros N. unfold ulp_exponent.
  destruct (Z.max_spec (Qlog2 q - 52) (-1074)) as [[_ ->]|[_ ->]]; [now right|left].
  rewrite <- Qpower_plus by discriminate.
  replace (Qlog2 q - 52 + 52)%Z with (Qlog2 q) by lia.
  now apply Qlog2_le.
Qed.

Lemma binary64_zero (q : Q) : q == 0 -> binary64 q == q.
Proof.
  intros E. unfold binary64.
  replace (Qeq_bool q 0) with true by (symmetry; now apply Qeq_bool_iff).
  now rewrite E.
Qed.

Lemma binary64_unfold (q : Q) :
  ~ q == 0 ->
  binary64 q = inject_Z (np_round_Z (q / 2 ^ ulp_exponent q)) * 2 ^ ulp_exponent q.
Proof.
  intros N. unfold binary64.
  destruct (Qeq_bool q 0) eqn:E; [|reflexivity].
  apply Qeq_bool_iff in E. contradiction.
Qed.

(** The rounding error is at most half a unit in the last place. *)
Lemma binary64_error (q : Q) :
  ~ q == 0 -> Qabs (binary64 q - q) <= (1 # 2) * 2 ^ ulp_exponent q.
Proof.
  intros N. rewrite (binary64_unfold N).
  set (u := 2 ^ ulp_exponent q).
  assert (P : 0 < u) by apply two_power_pos.
  pose proof (np_round_error (q / u)) as R. unfold np_round in R.
  set (k := inject_Z (np_round_Z (q / u))) in *.
  assert (E : k * u - q == (k - q / u) * u) by (field; lra).
  rewrite E, Qabs_Qmult, (Qabs_pos u) by lra.
  apply Qmult_le_compat_r; [exact R | lra].
Qed.

(** A multiple of the unit in the last place is a double. *)
Lemma binary64_exact (q : Q) (m : Z) :
  q / 2 ^ ulp_exponent q == inject_Z m -> binary64 q == q.
Proof.
  intros E. destruct (Qeq_dec q 0) as [Z0|N]; [now apply binary64_zero|].
  rewrite (binary64_unfold N).
  assert (P : 0 < 2 ^ ulp_exponent q) by apply two_power_pos.
  rewrite (np_round_Z_compat E).
  change (inject_Z (np_round_Z (inject_Z m))) with (np_round (inject_Z m)).
  rewrite np_round_integer, <- E. field. lra.
Qed.

(** An integer of magnitude below [2 ^ 53] is a double. *)
Lemma binary64_integer (q : Q) (z : Z) :
  q == inject_Z z -> (Z.abs z < 2 ^ 53)%Z -> binary64 q == q.
Proof.
  intros E B. destruct (Qeq_dec q 0) as [Z0|N]; [now apply binary64_zero|].
  assert (L : (ulp_exponent q <= 0)%Z).
  { apply ulp_exponent_le; [exact N| |lia].
    rewrite E. change (0 + 53)%Z with 53%Z. rewrite two_power_Z by lia.
    apply Qabs_Qlt_condition. rewrite <- inject_Z_opp, <- !Zlt_Qlt. lia. }
  apply (@binary64_exact q (z * 2 ^ (- ulp_exponent q))).
  set (e := ulp_exponent q) in *.
  rewrite inject_Z_mult, <- two_power_Z, Qpower_opp, E by lia.
  reflexivity.
Qed.

(** Half an integer of magnitude below [2 ^ 53] is a double. *)
Lemma binary64_half_integer (q : Q) (z : Z) :
  2 * q == inject_Z z -> (Z.abs z < 2 ^ 53)%Z -> binary64 q == q.
Proof.
  intros E B. destruct (Qeq_dec q 0) as [Z0|N]; [now apply binary64_zero|].
  assert (Eq : q == inject_Z z / 2) by (rewrite <- E; field).
  assert (L : (ulp_exponent q <= -1)%Z).
  { apply ulp_exponent_le; [exact N| |lia].
    change (-1 + 53)%Z with 52%Z. rewrite two_power_Z by lia.
    apply Qabs_Qlt_condition. rewrite Eq.
    assert (U : - inject_Z (2 ^ 53) < inject_Z z < inject_Z (2 ^ 53)).
    { rewrite <- inject_Z_opp, <- !Zlt_Qlt. lia. }
    change (inject_Z (2 ^ 53)) with (2 * inject_Z (2 ^ 52)) in U. lra. }
  apply (@binary64_exact q (z * 2 ^ (- ulp_exponent q - 1))).
  set (e := ulp_exponent q) in *.
  rewrite inject_Z_mult, <- two_power_Z by lia.
  replace (- e - 1)%Z with (- e + -1)%Z by lia.
  rewrite Qpower_plus, Qpower_opp, Eq by discriminate.
  change (2 ^ (-1)) with (/ 2). field.
  pose proof (two_power_pos e). lra.
Qed.

(** *** Rounding to the nearest integer, as a relation *)

Lemma np_round_Z_nearest (q : Q) : nearest_even q (np_round_Z q).
Proof.
  split; [apply (np_round_error q)|].
  unfold np_round_Z.
  pose proof (Qfloor_le q) as Lo. pose proof (Qlt_floor q) as Hi.
  rewrite inject_Z_plus in Hi. change (inject_Z 1) with 1 in Hi.
  destruct (Qcompare_spec (q - inject_Z (Qfloor q)) (1 # 2)) as [E|E|E].
  - destruct (Z.even (Qfloor q)) eqn:V; intros _; [exact V|].
    rewrite Z.even_add, V. reflexivity.
  - intros A. exfalso. rewrite Qabs_neg in A by lra. lra.
  - intros A. exfalso. rewrite inject_Z_plus in A. change (inject_Z 1) with 1 in A.
    rewrite Qabs_pos in A by lra. lra.
Qed.

Lemma nearest_even_unique (q : Q) (k k' : Z) :
  nearest_even q k -> nearest_even q k' -> k = k'.
Proof.
  intros [A TA] [B TB].
  apply Qabs_Qle_condition in A. apply Qabs_Qle_condition in B.
  assert (D : - (1) <= inject_Z k - inject_Z k' <= 1) by lra.
  unfold Qminus in D. rewrite <- inject_Z_opp, <- inject_Z_plus in D.
  change 1 with (inject_Z 1) in D. rewrite <- inject_Z_opp, <- !Zle_Qle in D.
  destruct (Z.eq_dec k k') as [E|N]; [exact E|exfalso].
  assert (C : (k = k' + 1 \/ k' = k + 1)%Z) by lia.
  destruct C as [C|C]; subst.
  - rewrite inject_Z_plus in A, TA. change (inject_Z 1) with 1 in *.
    assert (EA : inject_Z k' + 1 - q == 1 # 2) by lra.
    assert (EB : inject_Z k' - q == - (1 # 2)) by lra.
    rewrite EA in TA. rewrite EB in TB.
    specialize (TA (Qeq_refl _)). specialize (TB (Qeq_refl _)).
    rewrite Z.even_add in TA. rewrite TB in TA. discriminate.
  - rewrite inject_Z_plus in B, TB. change (inject_Z 1) with 1 in *.
    assert (EB : inject_Z k + 1 - q == 1 # 2) by lra.
    assert (EA : inject_Z k - q == - (1 # 2)) by lra.
    rewrite EA in TA. rewrite EB in TB.
    specialize (TA (Qeq_refl _)). specialize (TB (Qeq_refl _)).
    rewrite Z.even_add in TB. rewrite TA in TB. discriminate.
Qed.

Lemma nearest_even_compat (q q' : Q) (k : Z) :
  q == q' -> nearest_even q k -> nearest_even q' k.
Proof. intros E [A T]. split; rewrite <- E; assumption. Qed.

Lemma nearest_even_round (q : Q) (k : Z) : nearest_even q k -> np_round_Z q = k.
Proof. intros H. exact (nearest_even_unique (np_round_Z_nearest q) H). Qed.

(** *** The mean of integer-valued doubles *)

Lemma half_ulp_small (q : Q) (s n : Z) :
  ~ q == 0 ->
  q == inject_Z s / inject_Z n ->
  (0 < n < 2 ^ 52)%Z -> (Z.abs s < 2 ^ 52)%Z ->
  inject_Z n * 2 ^ ulp_exponent q < 1.
Proof.
  intros N E Hn Hs.
  assert (PN : 0 < inject_Z n).
  { change 0 with (inject_Z 0). rewrite <- Zlt_Qlt. lia. }
  assert (UN : inject_Z n < 2 ^ 52).
  { rewrite two_power_Z by lia. rewrite <- Zlt_Qlt. lia. }
  destruct (ulp_size N) as [U|U].
  - set (u := 2 ^ ulp_exponent q) in *.
    assert (A : Qabs q == Qabs (inject_Z s) / inject_Z n).
    { rewrite E. unfold Qdiv. rewrite Qabs_Qmult, Qabs_Qinv, (Qabs_pos (inject_Z n)) by lra.
      reflexivity. }
    assert (S : Qabs (inject_Z s) < 2 ^ 52).
    { rewrite two_power_Z by lia. apply Qabs_Qlt_condition.
      rewrite <- inject_Z_opp, <- !Zlt_Qlt. lia. }
    rewrite A in U.
    assert (V : u * 2 ^ 52 * inject_Z n <= Qabs (inject_Z s)).
    { apply (Qmult_le_compat_r _ _ (inject_Z n)) in U; [|lra].
      assert (X : Qabs (inject_Z s) / inject_Z n * inject_Z n == Qabs (inject_Z s))
        by (field; lra).
      now rewrite X in U. }
    assert (P52 : 0 < 2 ^ 52) by apply two_power_pos.
    assert (W : inject_Z n * u * 2 ^ 52 < 1 * 2 ^ 52) by lra.
    apply Qmult_lt_r in W; [exact W | exact P52].
  - rewrite U.
    assert (T : 2 ^ 52 * 2 ^ (-1074) < 1).
    { rewrite <- Qpower_plus by discriminate. change 1 with (2 ^ 0).
      apply Qpower_lt_compat_l; [lia | reflexivity]. }
    assert (P : 0 < 2 ^ (-1074)) by apply two_power_pos.
    apply Qlt_trans with (2 ^ 52 * 2 ^ (-1074)); [|exact T].
    apply Qmult_lt_r; assumption.
Qed.

(** Dividing an integer sum by a count and rounding the double quotient to
    an integer gives the same integer as rounding the exact quotient. *)
Lemma rounded_quotient_exact (q : Q) (s n : Z) :
  q == inject_Z s / inject_Z n ->
  (0 < n < 2 ^ 52)%Z -> (Z.abs s < 2 ^ 52)%Z ->
  np_round_Z (binary64 q) = np_round_Z q.
Proof.
  intros E Hn Hs.
  destruct (Qeq_dec q 0) as [Z0|N].
  { apply np_round_Z_compat. now apply binary64_zero. }
  assert (PN : 0 < inject_Z n).
  { change 0 with (inject_Z 0). rewrite <- Zlt_Qlt. lia. }
  assert (S : Qabs (inject_Z s) < inject_Z (2 ^ 52)).
  { apply Qabs_Qlt_condition. rewrite <- inject_Z_opp, <- !Zlt_Qlt. lia. }
  assert (Bq : Qabs q < inject_Z (2 ^ 52)).
  { assert (A : Qabs q == Qabs (inject_Z s) / inject_Z n).
    { rewrite E. unfold Qdiv.
      rewrite Qabs_Qmult, Qabs_Qinv, (Qabs_pos (inject_Z n)) by lra. reflexivity. }
    rewrite A. apply Qlt_shift_div_r; [exact PN|].
    assert (O : 1 <= inject_Z n).
    { change 1 with (inject_Z 1). rewrite <- Zle_Qle. lia. }
    pose proof (Qabs_nonneg (inject_Z s)) as P.
    assert (T : 0 < inject_Z (2 ^ 52)) by reflexivity.
    nra. }
  apply nearest_even_round.
  set (k := np_round_Z q).
  destruct (np_round_Z_nearest q) as [A T]. fold k in A, T.
  destruct (Qeq_dec (Qabs (inject_Z k - q)) (1 # 2)) as [H|H].
  - (* a tie: the quotient is half an integer, hence a double *)
    assert (X : binary64 q == q).
    { apply Qabs_Qlt_condition in Bq.
      destruct (Qlt_le_dec (inject_Z k - q) 0) as [Neg|Pos].
      - rewrite Qabs_neg in H by lra.
        apply (@binary64_half_integer q (2 * k + 1)).
        + rewrite inject_Z_plus, inject_Z_mult. change (inject_Z 2) with 2.
          change (inject_Z 1) with 1. lra.
        + assert (R : - inject_Z (2 ^ 53) < inject_Z (2 * k + 1) < inject_Z (2 ^ 53)).
          { rewrite inject_Z_plus, inject_Z_mult. change (inject_Z 2) with 2.
            change (inject_Z 1) with 1.
            change (inject_Z (2 ^ 53)) with (2 * inject_Z (2 ^ 52)). lra. }
          rewrite <- inject_Z_opp, <- !Zlt_Qlt in R. lia.
      - rewrite Qabs_pos in H by lra.
        apply (@binary64_half_integer q (2 * k - 1)).
        + unfold Z.sub. rewrite inject_Z_plus, inject_Z_mult, inject_Z_opp.
          change (inject_Z 2) with 2. change (inject_Z 1) with 1. lra.
        + assert (R : - inject_Z (2 ^ 53) < inject_Z (2 * k - 1) < inject_Z (2 ^ 53)).
          { unfold Z.sub. rewrite inject_Z_plus, inject_Z_mult, inject_Z_opp.
            change (inject_Z 2) with 2. change (inject_Z 1) with 1.
            change (inject_Z (2 ^ 53)) with (2 * inject_Z (2 ^ 52)). lra. }
          rewrite <- inject_Z_opp, <- !Zlt_Qlt in R. lia. }
    apply (@nearest_even_compat q); [now symmetry | split; assumption].
  - (* no tie: the rounding error is smaller than the gap to the tie *)
    assert (Lt : Qabs (inject_Z k - q) < 1 # 2).
    { apply Qle_lt_or_eq in A. destruct A; [assumption | contradiction]. }
    clear A T H.
    pose proof (binary64_error N) as Er.
    pose proof (@half_ulp_small q s n N E Hn Hs) as Hu.
    set (u := 2 ^ ulp_exponent q) in *.
    assert (Pu : 0 < u) by apply two_power_pos.
    set (m := (n * k - s)%Z).
    assert (M : inject_Z n * (inject_Z k - q) == inject_Z m).
    { unfold m, Z.sub. rewrite inject_Z_plus, inject_Z_mult, inject_Z_opp, E.
      field. lra. }
    assert (Zm : (2 * Z.abs m < n)%Z).
    { apply Qabs_Qlt_condition in Lt.
      assert (R : - inject_Z n < inject_Z (2 * m) < inject_Z n).
      { rewrite inject_Z_mult, <- M. change (inject_Z 2) with 2. nra. }
      rewrite <- inject_Z_opp, <- !Zlt_Qlt in R. lia. }
    assert (Qm : - (inject_Z n - 1) <= 2 * inject_Z m <= inject_Z n - 1).
    { assert (Z1 : (2 * m <= n + - (1))%Z) by lia.
      assert (Z2 : (- (n + - (1)) <= 2 * m)%Z) by lia.
      rewrite Zle_Qle in Z1, Z2.
      rewrite inject_Z_mult, inject_Z_plus, inject_Z_opp in Z1.
      rewrite inject_Z_mult, inject_Z_opp, inject_Z_plus, inject_Z_opp in Z2.
      change (inject_Z 2) with 2 in Z1, Z2. change (inject_Z 1) with 1 in Z1, Z2.
      split; lra. }
    apply Qabs_Qle_condition in Er.
    assert (Fin : Qabs (inject_Z k - binary64 q) < 1 # 2).
    { apply Qabs_Qlt_condition.
      set (f := binary64 q) in *.
      assert (G : inject_Z n * (inject_Z k - f)
                  == inject_Z m - inject_Z n * (f - q)) by (rewrite <- M; ring).
      split.
      - apply (Qmult_lt_l _ _ (inject_Z n)); [exact PN|]. rewrite G. nra.
      - apply (Qmult_lt_l _ _ (inject_Z n)); [exact PN|]. rewrite G. nra. }
    split; [now apply Qlt_le_weak|].
    intros C. rewrite C in Fin. discriminate.
Qed.

Lemma Qsum_integers (zs : list Z) : Qsum (map inject_Z zs) == inject_Z (Zsum zs).
Proof.
  induction zs as [|z zs IH]; cbn [map Qsum Zsum fold_right]; [reflexivity|].
  unfold Qsum, Zsum in IH. now rewrite IH, inject_Z_plus.
Qed.

Lemma Zsum_bound (B : Z) (zs : list Z) :
  Forall (fun z => (Z.abs z <= B)%Z) zs ->
  (Z.abs (Zsum zs) <= Z.of_nat (length zs) * B)%Z.
Proof.
  induction 1 as [|z zs Hz _ IH]; cbn [Zsum fold_right length]; [lia|].
  unfold Zsum in IH. rewrite Nat2Z.inj_succ. lia.
Qed.

(** Adding integer-valued doubles one after the other is exact as long as
    no partial sum reaches [2 ^ 53]. *)
Lemma float_sum_exact (B : Z) (zs : list Z) (acc : Q) (s : Z) :
  acc == inject_Z s ->
  Forall (fun z => (Z.abs z <= B)%Z) zs ->
  (Z.abs s + Z.of_nat (length zs) * B < 2 ^ 53)%Z ->
  fold_left float_add (map inject_Z zs) acc == inject_Z (s + Zsum zs).
Proof.
  intros E F. revert acc s E.
  induction F as [|z zs Hz _ IH]; intros acc s E Hs; cbn [map fold_left Zsum fold_right] in *.
  - now rewrite Z.add_0_r.
  - assert (E' : acc + inject_Z z == inject_Z (s + z)) by now rewrite E, inject_Z_plus.
    cbn [length] in Hs. rewrite Nat2Z.inj_succ in Hs.
    pose proof (Zle_0_nat (length zs)) as Pl.
    rewrite (IH (float_add acc (inject_Z z)) (s + z)%Z).
    + unfold Zsum. now rewrite Z.add_assoc.
    + unfold float_add. rewrite (binary64_integer E'); [exact E'|]. nia.
    + nia.
Qed.

Lemma np_sum_exact (B : Z) (zs : list Z) :
  Forall (fun z => (Z.abs z <= B)%Z) zs ->
  (Z.of_nat (length zs) * B < 2 ^ 53)%Z ->
  np_sum (map inject_Z zs) == inject_Z (Zsum zs).
Proof.
  intros F Hs. destruct zs as [|z zs]; [reflexivity|].
  cbn [map np_sum]. inversion F as [|? ? Hz F']; subst.
  apply (@float_sum_exact B zs (inject_Z z) z (Qeq_refl _) F').
  cbn [length] in Hs. rewrite Nat2Z.inj_succ in Hs. lia.
Qed.

(** In range, the mean of integer-valued doubles rounds to the integer that
    the exact mean rounds to. *)
Lemma np_mean_exact (B : Z) (zs : list Z) :
  zs <> [] ->
  Forall (fun z => (Z.abs z <= B)%Z) zs ->
  (Z.of_nat (length zs) * B < 2 ^ 52)%Z ->
  np_round_Z (np_mean (map inject_Z zs)) = np_round_Z (mean (map inject_Z zs)).
Proof.
  intros N F Hs. unfold np_mean, mean, float_div. rewrite length_map.
  pose proof (Zsum_bound F) as Sb.
  assert (Pn : (0 < Z.of_nat (length zs))%Z) by (destruct zs; [contradiction | cbn [length]; lia]).
  assert (Es : np_sum (map inject_Z zs) == inject_Z (Zsum zs))
    by (apply (@np_sum_exact B); [exact F | lia]).
  set (n := Z.of_nat (length zs)) in *.
  assert (Nn : ~ inject_Z n == 0).
  { change 0 with (inject_Z 0). rewrite inject_Z_injective. lia. }
  destruct (Z.eq_dec (Zsum zs) 0) as [S0|S1].
  - assert (Q0 : np_sum (map inject_Z zs) / inject_Z n == 0).
    { rewrite Es, S0. field. exact Nn. }
    rewrite (np_round_Z_compat (binary64_zero Q0)).
    apply np_round_Z_compat. now rewrite Es, Qsum_integers.
  - rewrite (@rounded_quotient_exact _ (Zsum zs) n).
    + apply np_round_Z_compat. now rewrite Es, Qsum_integers.
    + now rewrite Es.
    + assert (B1 : (1 <= B)%Z) by nia.
      assert (nB : (n <= n * B)%Z) by nia. lia.
    + lia.
Qed.

(** *** The resolver against the exact rounded mean *)

Lemma np_round_Z_bound (B : Z) (q : Q) :
  Qabs q <= inject_Z B -> (Z.abs (np_round_Z q) <= B)%Z.
Proof.
  intros H. pose proof (np_round_error q) as R. unfold np_round in R.
  apply Qabs_Qle_condition in H. apply Qabs_Qle_condition in R.
  assert (U : inject_Z (np_round_Z q) < inject_Z (B + 1)).
  { rewrite inject_Z_plus. change (inject_Z 1) with 1. lra. }
  assert (L : inject_Z (- (B + 1)) < inject_Z (np_round_Z q)).
  { rewrite inject_Z_opp, inject_Z_plus. change (inject_Z 1) with 1. lra. }
  rewrite <- Zlt_Qlt in U, L. lia.
Qed.

Lemma np_round_rows_fst (l : list coord) :
  map fst (np_round_rows l) = map inject_Z (map np_round_Z (map fst l)).
Proof. unfold np_round_rows. rewrite !map_map. reflexivity. Qed.

Lemma np_round_rows_snd (l : list coord) :
  map snd (np_round_rows l) = map inject_Z (map np_round_Z (map snd l)).
Proof. unfold np_round_rows. rewrite !map_map. reflexivity. Qed.

Lemma axis_exact (B : Z) (l : list Q) :
  l <> [] ->
  Forall (fun q => Qabs q <= inject_Z B) l ->
  (Z.of_nat (length l) * B < 2 ^ 52)%Z ->
  np_round (np_mean (map inject_Z (map np_round_Z l))) = inject_Z (exact_axis l).
Proof.
  intros N F L. unfold np_round, exact_axis. f_equal.
  apply (@np_mean_exact B).
  - destruct l; [contradiction | discriminate].
  - apply Forall_map. eapply Forall_impl; [|exact F].
    intros q Hq. now apply np_round_Z_bound.
  - now rewrite length_map.
Qed.

(** In range, the resolver computes the exact resolution. *)
Lemma resolve_rows_exact (B : Z) (ps : list coord) :
  ps <> [] -> in_range B ps -> resolve_rows ps = inr (exact_resolution ps).
Proof.
  intros N [F L]. destruct ps as [|p ps]; [contradiction|].
  rewrite resolve_rows_nonempty. unfold rounded_mean, exact_resolution.
  rewrite np_round_rows_fst, np_round_rows_snd.
  rewrite (@axis_exact B), (@axis_exact B); try discriminate;
    try (now rewrite length_map); try reflexivity;
    apply Forall_map; (eapply Forall_impl; [|exact F]); cbn beta; tauto.
Qed.

Lemma exact_axis_spec (l : list Q) : rounded_mean_of_rounded l (exact_axis l).
Proof.
  exists (map np_round_Z l). split; [|apply np_round_Z_nearest].
  induction l as [|q l IH]; constructor; [apply np_round_Z_nearest | exact IH].
Qed.

Lemma exact_resolution_spec (ps : list coord) : resolves_to ps (exact_resolution ps).
Proof.
  exists (exact_axis (map fst ps)), (exact_axis (map snd ps)).
  split; [reflexivity|]. split; apply exact_axis_spec.
Qed.



Lemma Qsum_perm (l l' : list Q) : Permutation l l' -> Qsum l == Qsum l'.
Proof.
  induction 1; cbn.
  - reflexivity.
  - now rewrite IHPermutation.
  - ring.
  - now rewrite IHPermutation1.
Qed.

Lemma exact_axis_perm (l l' : list Q) :
  Permutation l l' -> exact_axis l = exact_axis l'.
Proof.
  intros P. unfold exact_axis, mean. apply np_round_Z_compat.
  rewrite !length_map, (Permutation_length P).
  rewrite (Qsum_perm (Permutation_map inject_Z (Permutation_map np_round_Z P))).
  reflexivity.
Qed.

Lemma exact_resolution_perm (ps ps' : list coord) :
  Permutation ps ps' -> exact_resolution ps = exact_resolution ps'.
Proof.
  intros P. unfold exact_resolution.
  now rewrite (exact_axis_perm (Permutation_map fst P)),
              (exact_axis_perm (Permutation_map snd P)).
Qed.

Lemma in_range_perm (B : Z) (ps ps' : list coord) :
  Permutation ps ps' -> in_range B ps -> in_range B ps'.
Proof.
  intros P [F L]. split.
  - eapply Permutation_Forall; eassumption.
  - now rewrite <- (Permutation_length P).
Qed.










(** C9, as stated, does not hold.  The cluster [(0.4, 0), (1.4, 0)] lies
    within the tolerance and resolves to [(0, 0)], while its rounded mean is
    [(1, 0)]: the members are rounded before the mean is taken.  And the
    four members of [far_cluster], within the tolerance too, resolve to one
    point in one order and to another point in another order: near [2 ^ 52]
    the sum of the doubles depends on the order of the additions. *)
Lemma resolver_order_refuted :
  ~ spec_order_independent /\
  (Forall (within_1px (2 # 5, 0)) [(7 # 5, 0)] /\
   get_intersection_point (MultiPoint [(2 # 5, 0); (7 # 5, 0)]) = inr (0, 0) /\
   is_rounded_mean [(2 # 5, 0); (7 # 5, 0)] (1, 0)) /\
  (Forall (within_1px (pt (2 ^ 52 - 3) 0))
          [pt (2 ^ 52 - 2) 0; pt (2 ^ 52 - 2) 0; pt (2 ^ 52 - 3) 0] /\
   Permutation far_cluster far_cluster_reordered /\
   get_intersection_point (MultiPoint far_cluster) = inr (pt (2 ^ 52 - 3) 0) /\
   get_intersection_point (MultiPoint far_cluster_reordered)
   = inr (pt (2 ^ 52 - 2) 0)).
Proof.
  assert (T : Forall (within_1px (2 # 5, 0)) [(7 # 5, 0)]).
  { repeat constructor; vm_compute; discriminate. }
  split; [|split].
  - intros H.
    destruct (H (2 # 5, 0) [(7 # 5, 0)] [(2 # 5, 0); (7 # 5, 0)] T (Permutation_refl _))
      as (p & E & kx & ky & -> & [Hx _] & _).
    vm_compute in E. inversion E; subst kx.
    vm_compute in Hx. now apply Hx.
  - split; [exact T|]. split; [vm_compute; reflexivity|].
    exists 1%Z, 0%Z. split; [reflexivity|].
    repeat split; vm_compute; discriminate.
  - split; [repeat constructor; vm_compute; discriminate|].
    split; [|split; vm_compute; reflexivity].
    unfold far_cluster, far_cluster_reordered.
    apply (Permutation_cons_app [_] [_; _]). cbn [app].
    apply perm_skip. apply perm_swap.
Qed.

(** C9 (amended): for a cluster within the tolerance whose coordinates
    are in range, any permutation of the members resolves to the same
    point, the rounded component-wise mean of the individually rounded
    members. *)
Theorem resolver_order_independent (B : Z) (first : coord) (rest ps' : list coord) :
  in_range B (first :: rest) ->
  Forall (within_1px first) rest ->
  Permutation (first :: rest) ps' ->
  exists p,
    get_intersection_point (MultiPoint (first :: rest)) = inr p /\
    get_intersection_point (MultiPoint ps') = inr p /\
    resolves_to (first :: rest) p.
Proof.
  intros R _ P. exists (exact_resolution (first :: rest)).
  cbn [get_intersection_point].
  split; [apply (@resolve_rows_exact B); [discriminate | exact R]|].
  split; [|apply exact_resolution_spec].
  rewrite (exact_resolution_perm P).
  apply (@resolve_rows_exact B).
  - intros ->. apply Permutation_sym, Permutation_nil in P. discriminate.
  - exact (in_range_perm P R).
Qed.

Lemma resolver_order_independent_witness :
  exists p,
    get_intersection_point (MultiPoint [(2 # 5, 0); (7 # 5, 1); (1, 1 # 2)]) = inr p /\
    get_intersection_point (MultiPoint [(1, 1 # 2); (2 # 5, 0); (7 # 5, 1)]) = inr p /\
    resolves_to [(2 # 5, 0); (7 # 5, 1); (1, 1 # 2)] p.
Proof.
  apply (@resolver_order_independent 2).
  - split; [repeat constructor; vm_compute; discriminate | vm_compute; reflexivity].
  - repeat constructor; vm_compute; discriminate.
  - apply Permutation_sym. apply (Permutation_cons_app [_; _] []). reflexivity.
Defined.

(** ** The engine: guards and rejections *)

Lemma bind_ret_l {A B} (a : A) (f : A -> M B) : bind (ret a) f = f a.
Proof. unfold bind, ret. now destruct (f a). Qed.

Lemma LineString_init_ok (cs : list coord) :
  length cs <> 1%nat -> LineString_init cs = ret cs.
Proof. destruct cs as [|c [|d cs]]; cbn; congruence. Qed.

Ltac split_paths :=
  repeat (cbv beta iota zeta fix delta
            [bind ret emit return_ raise item item_last local fst snd app
             existsb is_reject is_curve run emitted orb andb nth_error
             rejected produced get_intersection_point];
          match goal with
          | |- context [match ?x with _ => _ end] =>
              lazymatch x with
              | context [match _ with _ => _ end] => fail
              | _ => destruct x
              end
          end).

(** C10: a gesture of fewer than four points makes both slots return at
    once, with no curve and no reject code. *)
Theorem short_gesture_silent (K : Kernel) (parent lasso : list coord) :
  (length lasso < 4)%nat ->
  run (get_lasso_area K lasso) = ([], Returned) /\
  run (get_multi_area K (parent, lasso)) = ([], Returned).
Proof.
  intros H. apply Nat.ltb_lt in H.
  unfold get_lasso_area, get_multi_area. now rewrite H.
Qed.

Lemma short_gesture_silent_witness :
  run (get_lasso_area Ref.kernel [pt 0 0; pt 10 0; pt 10 10]) = ([], Returned) /\
  run (get_multi_area Ref.kernel (square_ring, [pt 0 0; pt 10 0; pt 10 10]))
  = ([], Returned).
Proof. apply short_gesture_silent. cbn. lia. Defined.

(** *** What each stage of the split can do *)

Section Stages.
Variable K : Kernel.

Lemma second_split_cases (pieces : list (list coord)) (locus at_ : coord) :
  (exists s, second_split K pieces locus at_ = ([], inr (Some s))) \/
  second_split K pieces locus at_ = ([ask_redraw 0], inr None) \/
  (exists e, second_split K pieces locus at_ = ([], inl (Raise e))).
Proof. unfold second_split. split_paths; cbn; eauto 7. Qed.

Lemma kept_subline_unbound (cp1 cp2 : coord) (multi : list (list coord)) :
  kept_subline K None cp1 cp2 multi = ([], inl (Raise UnboundLocalError)).
Proof. reflexivity. Qed.

Lemma kept_subline_cases (s : list (list coord)) (cp1 cp2 : coord)
      (multi : list (list coord)) :
  (exists k, kept_subline K (Some s) cp1 cp2 multi = ([], inr (multi ++ [k]))) \/
  kept_subline K (Some s) cp1 cp2 multi = ([ask_redraw 0], inr multi) \/
  (exists e, kept_subline K (Some s) cp1 cp2 multi = ([], inl (Raise e))).
Proof. unfold kept_subline. split_paths; cbn; eauto 7. Qed.

Lemma seam_free_arc_unbound (maincell : list coord) (multi : list (list coord)) :
  seam_free_arc K None maincell multi = ([], inl (Raise UnboundLocalError)).
Proof. reflexivity. Qed.

Lemma seam_free_arc_cases (s : list (list coord)) (maincell : list coord)
      (multi : list (list coord)) :
  (exists r, seam_free_arc K (Some s) maincell multi = ([], inr (multi ++ [r]))) \/
  seam_free_arc K (Some s) maincell multi = ([ask_redraw 0], inr multi) \/
  (exists e, seam_free_arc K (Some s) maincell multi = ([], inl (Raise e))).
Proof. unfold seam_free_arc. split_paths; cbn; eauto 7. Qed.

Lemma stitch_cases (multi : list (list coord)) :
  (exists x y, stitch K multi = ([new_coords x y], inr tt) /\ (2 <= length multi)%nat) \/
  (exists e, stitch K multi = ([], inl (Raise e))).
Proof.
  unfold stitch. destruct multi as [|m0 [|m1 multi]].
  - right. eexists. reflexivity.
  - right. eexists. reflexivity.
  - split_paths; cbn; eauto;
      left; do 2 eexists; (split; [reflexivity | lia]).
Qed.

Lemma resolve_all_points (cps : list coord) :
  resolve_all cps = ([], inr cps).
Proof.
  induction cps as [|c cps IH]; [reflexivity|].
  cbn [resolve_all get_intersection_point]. now rewrite IH.
Qed.

End Stages.

Lemma emitted_run (m : M unit) : emitted (run m) = fst m.
Proof. now destruct m as [s [[|e]|[]]]. Qed.

Ltac mred :=
  cbv beta iota zeta delta [bind ret emit return_ raise item local nth_error];
  cbn [app fst snd rejected produced existsb is_reject is_curve orb andb].

Lemma split_region_all_or_nothing (K : Kernel) (maincell newline ps : list coord) :
  rejected (fst (split_region K maincell newline ps))
  && produced (fst (split_region K maincell newline ps)) = false.
Proof.
  unfold split_region.
  destruct ps as [|locus0 [|locus1 ps]]; [reflexivity | reflexivity |].
  mred. rewrite resolve_all_points. mred.
  destruct (second_split_cases K (split K newline (nearest_points K newline locus0))
              locus1 (nearest_points K newline locus1)) as [[s ->]|[->|[e ->]]];
    mred; [| reflexivity | reflexivity].
  destruct (kept_subline_cases K s (nearest_points K newline locus0)
              (nearest_points K newline locus1) []) as [[k ->]|[->|[e ->]]];
    mred; [| | reflexivity].
  - destruct (second_split_cases K (split K maincell (nearest_points K maincell locus0))
                (nearest_points K maincell locus1) (nearest_points K maincell locus1))
      as [[s' ->]|[->|[e ->]]]; mred; [| reflexivity | reflexivity].
    destruct (seam_free_arc_cases K s' maincell [k]) as [[r ->]|[->|[e ->]]];
      mred; [| reflexivity | reflexivity].
    destruct (stitch_cases K [k; r]) as [(x & y & -> & _)|[e ->]]; reflexivity.
  - destruct (second_split_cases K (split K maincell (nearest_points K maincell locus0))
                (nearest_points K maincell locus1) (nearest_points K maincell locus1))
      as [[s' ->]|[->|[e ->]]]; mred; [| reflexivity | reflexivity].
    destruct (seam_free_arc_cases K s' maincell []) as [[r ->]|[->|[e ->]]];
      mred; reflexivity.
Qed.

Lemma get_multi_area_all_or_nothing (K : Kernel) (lassolist : list coord * list coord) :
  rejected (emitted (run (get_multi_area K lassolist)))
  && produced (emitted (run (get_multi_area K lassolist))) = false.
Proof.
  rewrite emitted_run. destruct lassolist as [parent gesture].
  unfold get_multi_area.
  destruct (length gesture <? 4)%nat; [reflexivity|].
  unfold LineString_init.
  destruct parent as [|c [|d parent]]; [| reflexivity |];
    (destruct gesture as [|g [|h gesture]]; [| reflexivity |]); mred;
    match goal with
    | |- context [intersects K ?a ?b] => destruct (intersects K a b); [| reflexivity]
    end;
    match goal with
    | |- context [intersection K ?a ?b] =>
        destruct (intersection K a b) as [?|?|ps|?|?]; try reflexivity
    end;
    (destruct (2 <? length ps)%nat; [reflexivity|]);
    match goal with
    | |- context [split_region K ?a ?b ?c] =>
        pose proof (split_region_all_or_nothing K a b c) as H;
        destruct (split_region K a b c) as [sg res]
    end; mred; cbn [fst] in H; exact H.
Qed.

Lemma lasso_crosspoint_cases (lasso : list coord) (g : Geometry) :
  (exists x y, lasso_crosspoint lasso g = ([new_coords x y], inl Return)) \/
  lasso_crosspoint lasso g = ([ask_redraw 1], inl Return) \/
  (exists p, lasso_crosspoint lasso g = ([], inr p)) \/
  (exists e, lasso_crosspoint lasso g = ([], inl (Raise e))).
Proof.
  unfold lasso_crosspoint, ret, raise, emit, return_, bind.
  destruct g as [c|cs|ps|ls|[|g gs]]; cbn [get_intersection_point].
  - eauto 7.
  - destruct (resolve_rows cs) as [[]|p]; cbn; eauto 7.
  - destruct (resolve_rows ps) as [[]|p]; cbn; eauto 7.
  - destruct (resolve_lines ls) as [[]|tmp]; cbn; eauto 7;
      destruct (resolve_rows tmp) as [[]|p]; cbn; eauto 7.
  - cbn. eauto 6.
  - cbn. eauto.
Qed.

Lemma get_lasso_area_all_or_nothing (K : Kernel) (lasso : list coord) :
  rejected (emitted (run (get_lasso_area K lasso)))
  && produced (emitted (run (get_lasso_area K lasso))) = false.
Proof.
  rewrite emitted_run. unfold get_lasso_area.
  destruct (length lasso <? 4)%nat; [reflexivity|].
  destruct (array_split lasso) as [l1 l2]. unfold LineString_init.
  destruct l1 as [|c [|d l1]]; [| reflexivity |];
    (destruct l2 as [|g [|h l2]]; [| reflexivity |]); mred;
    match goal with
    | |- context [lasso_crosspoint lasso ?g] =>
        destruct (lasso_crosspoint_cases lasso g)
          as [(x & y & ->)|[->|[[p ->]|[e ->]]]]
    end; try reflexivity; split_paths; reflexivity.
Qed.

(** C7: no call of either slot both reports a reject code and emits a
    curve. *)
Theorem resolution_all_or_nothing (K : Kernel) (parent gesture : list coord) :
  rejected (emitted (run (get_multi_area K (parent, gesture))))
  && produced (emitted (run (get_multi_area K (parent, gesture)))) = false
  /\
  rejected (emitted (run (get_lasso_area K gesture)))
  && produced (emitted (run (get_lasso_area K gesture))) = false.
Proof.
  split; [apply get_multi_area_all_or_nothing | apply get_lasso_area_all_or_nothing].
Qed.

(** ** The crossing checks of the split *)

Lemma ref_multipoint_has_two : multipoint_has_two Ref.kernel.
Proof.
  intros a b ps. cbn. unfold Ref.intersection, Ref.classify.
  destruct (Ref.runs_of (Ref.common a b)) as [|l [|l' runs]];
    destruct (Ref.points_of (Ref.common a b)) as [|p [|q pts]];
    intros H; inversion H; cbn; lia.
Qed.

(** C3, as stated, does not hold: a three-point gesture that stays clear of
    the parent is not rejected at all. *)
Lemma untouched_short_gesture_not_rejected :
  intersects Ref.kernel [pt 20 20; pt 21 20; pt 21 21] square_ring = false /\
  run (get_multi_area Ref.kernel (square_ring, [pt 20 20; pt 21 20; pt 21 21]))
  = ([], Returned).
Proof. split; vm_compute; reflexivity. Qed.

(** C3 (amended): for a gesture of at least four points (and a parent that
    is not a single coordinate), the split rejects with code 2 when the
    gesture does not intersect the parent and when the intersection is
    anything but a set of discrete points, with code 4 when it is a set of
    more than two points, and goes on to the split proper only with exactly
    two point loci. *)
Theorem split_crossing_checks (K : Kernel) (parent gesture : list coord) :
  multipoint_has_two K ->
  (4 <= length gesture)%nat ->
  length parent <> 1%nat ->
  (intersects K gesture parent = false ->
   run (get_multi_area K (parent, gesture)) = ([ask_redraw 2], Returned)) /\
  ((forall ps, intersection K parent gesture <> MultiPoint ps) ->
   run (get_multi_area K (parent, gesture)) = ([ask_redraw 2], Returned)) /\
  (forall ps,
      intersects K gesture parent = true ->
      intersection K parent gesture = MultiPoint ps ->
      (2 < length ps)%nat ->
      run (get_multi_area K (parent, gesture)) = ([ask_redraw 4], Returned)) /\
  (run (get_multi_area K (parent, gesture)) = ([ask_redraw 2], Returned) \/
   run (get_multi_area K (parent, gesture)) = ([ask_redraw 4], Returned) \/
   exists p q,
     intersects K gesture parent = true /\
     intersection K parent gesture = MultiPoint [p; q] /\
     get_multi_area K (parent, gesture) = split_region K parent gesture [p; q]).
Proof.
  intros Htwo Hlen Hpar.
  assert (E : get_multi_area K (parent, gesture) =
              if intersects K gesture parent then
                match intersection K parent gesture with
                | MultiPoint crosspoint_temp =>
                    if (2 <? length crosspoint_temp)%nat
                    then ([ask_redraw 4], inl Return)
                    else split_region K parent gesture crosspoint_temp
                | _ => ([ask_redraw 2], inl Return)
                end
              else ([ask_redraw 2], inr tt)).
  { unfold get_multi_area.
    replace (length gesture <? 4)%nat with false
      by (symmetry; apply Nat.ltb_ge; exact Hlen).
    rewrite (LineString_init_ok parent Hpar), bind_ret_l.
    rewrite (LineString_init_ok gesture), bind_ret_l by lia.
    destruct (intersects K gesture parent); [|reflexivity].
    destruct (intersection K parent gesture); reflexivity. }
  rewrite E. repeat split.
  - intros ->. reflexivity.
  - intros HM. destruct (intersects K gesture parent); [|reflexivity].
    destruct (intersection K parent gesture) as [?|?|ps|?|?]; try reflexivity.
    now destruct (HM ps).
  - intros ps -> -> Hps. apply Nat.ltb_lt in Hps. now rewrite Hps.
  - destruct (intersects K gesture parent); [|left; reflexivity].
    destruct (intersection K parent gesture) as [?|?|ps|?|?] eqn:HI;
      try (left; reflexivity).
    destruct (2 <? length ps)%nat eqn:Hps; [right; left; reflexivity|].
    right; right. apply Nat.ltb_ge in Hps. apply Htwo in HI.
    destruct ps as [|p [|q [|r ps]]]; cbn in *; try lia.
    exists p, q. repeat split.
Qed.

Lemma split_crossing_checks_witness :
  run (get_multi_area Ref.kernel
         (square_ring, [pt 20 20; pt 21 20; pt 21 21; pt 20 21]))
  = ([ask_redraw 2], Returned).
Proof.
  apply (proj1 (@split_crossing_checks Ref.kernel square_ring
                  [pt 20 20; pt 21 20; pt 21 21; pt 20 21]
                  ref_multipoint_has_two
                  ltac:(cbn; lia) ltac:(cbn; lia))).
  vm_compute. reflexivity.
Defined.

(** ** Closing a simple loop *)

Lemma coord_eqb_eq (p q : coord) :
  coord_eqb p q = true <-> fst p == fst q /\ snd p == snd q.
Proof.
  unfold coord_eqb. rewrite andb_true_iff, !Qeq_bool_iff. reflexivity.
Qed.

Lemma on_seg_endpoint (a b p : coord) :
  coord_eqb p a = true \/ coord_eqb p b = true -> Ref.on_seg a b p = true.
Proof.
  destruct a as [ax ay], b as [bx by_], p as [px py].
  unfold Ref.on_seg, Ref.cross, Ref.dot, Ref.sub.
  rewrite andb_true_iff, Qeq_bool_iff, Qle_bool_iff. cbn [fst snd].
  intros [H|H]; apply coord_eqb_eq in H; cbn [fst snd] in H;
    destruct H as [Hx Hy]; rewrite Hx, Hy; split; try ring.
  - assert (E : (ax - ax) * (ax - bx) + (ay - ay) * (ay - by_) == 0) by ring.
    rewrite E. apply Qle_refl.
  - assert (E : (bx - ax) * (bx - bx) + (by_ - ay) * (by_ - by_) == 0) by ring.
    rewrite E. apply Qle_refl.
Qed.

Lemma coord_eqb_sym (p q : coord) : coord_eqb p q = coord_eqb q p.
Proof.
  apply eq_true_iff_eq. rewrite !coord_eqb_eq.
  split; intros [H1 H2]; split; now symmetry.
Qed.

Lemma dedupe_nil (ps : list coord) : Ref.dedupe ps = [] -> ps = [].
Proof. destruct ps; [reflexivity | discriminate]. Qed.

Lemma pair_geom_shared (s t : coord * coord) (p q : coord) :
  p = fst s \/ p = snd s -> q = fst t \/ q = snd t ->
  coord_eqb p q = true -> Ref.pair_geom s t <> [].
Proof.
  intros Hp Hq E. unfold Ref.pair_geom.
  assert (N : Ref.hits s t <> []).
  { unfold Ref.hits. destruct s as [a b], t as [c d]. cbn [fst snd] in *.
    intros Hn. apply dedupe_nil in Hn. apply app_eq_nil in Hn as [Hn _].
    rewrite coord_eqb_sym in E.
    assert (O : Ref.on_seg a b q = true)
      by (apply on_seg_endpoint; destruct Hp; subst; auto).
    cbn [filter] in Hn.
    destruct Hq; subst q; rewrite O in Hn;
      [discriminate | destruct (Ref.on_seg a b c); discriminate]. }
  destruct (Ref.hits s t) as [|h [|h' hs]]; [contradiction | discriminate | discriminate].
Qed.

Lemma vertex_on_segment (a : list coord) (p : coord) :
  (2 <= length a)%nat -> In p a ->
  exists s, In s (Ref.segments a) /\ (p = fst s \/ p = snd s).
Proof.
  unfold Ref.segments.
  induction a as [|c a IH]; cbn [length]; [lia|].
  intros L [->|Hin].
  - destruct a as [|d a]; [cbn in L; lia|].
    exists (p, d). cbn. auto.
  - destruct a as [|d a]; [contradiction|].
    destruct a as [|e a].
    + destruct Hin as [->|[]]. exists (c, p). cbn. auto.
    + destruct (IH ltac:(cbn; lia) Hin) as (s & Hs & Hps).
      exists s. split; [right; exact Hs | exact Hps].
Qed.

Lemma common_shapes (a b : list coord) (g : Geometry) :
  In g (Ref.common a b) -> (exists p, g = Point p) \/ (exists l, g = LineString l).
Proof.
  unfold Ref.common. intros H.
  apply in_flat_map in H as (s & _ & H). apply in_flat_map in H as (t & _ & H).
  unfold Ref.pair_geom in H.
  destruct (Ref.hits s t) as [|h [|h' hs]].
  - destruct (Ref.proper _ _ _ _); [|contradiction].
    destruct H as [<-|[]]; eauto.
  - destruct H as [<-|[]]; eauto.
  - destruct H as [<-|[]]; eauto.
Qed.

Lemma ref_intersection_empty (a b : list coord) :
  Ref.intersection a b = GeometryCollection [] -> Ref.common a b = [].
Proof.
  unfold Ref.intersection, Ref.points_of, Ref.runs_of.
  destruct (Ref.common a b) as [|g gs] eqn:E; [reflexivity|].
  destruct (@common_shapes a b g) as [[p ->]|[l ->]]; [rewrite E; now left | |];
    cbn; unfold Ref.classify.
  - match goal with |- context [flat_map ?f gs] => destruct (flat_map f gs) as [|r [|r' rs]] end;
      try discriminate.
    match goal with |- context [filter ?f ?l] => destruct (filter f l) as [|? ?] end;
      discriminate.
  - match goal with |- context [flat_map ?f gs] => destruct (flat_map f gs) as [|r rs] end;
      discriminate.
Qed.

Lemma ref_empty_means_disjoint : empty_means_disjoint Ref.kernel.
Proof.
  intros a b La Lb HI p q Hp Hq. cbn in HI.
  apply ref_intersection_empty in HI.
  destruct (coord_eqb p q) eqn:E; [exfalso | reflexivity].
  destruct (@vertex_on_segment a p La Hp) as (s & Hs & Hps).
  destruct (@vertex_on_segment b q Lb Hq) as (t & Ht & Hqt).
  pose proof (@pair_geom_shared s t p q Hps Hqt E) as N.
  destruct (Ref.pair_geom s t) as [|g gs] eqn:G; [contradiction|].
  assert (I : In g (Ref.common a b)).
  { unfold Ref.common. apply in_flat_map. exists s. split; [exact Hs|].
    apply in_flat_map. exists t. split; [exact Ht|]. rewrite G. now left. }
  now rewrite HI in I.
Qed.

Lemma array_split_halves (lasso : list coord) :
  fst (array_split lasso) ++ snd (array_split lasso) = lasso /\
  length (fst (array_split lasso)) = Nat.div2 (S (length lasso)) /\
  (2 * length (fst (array_split lasso))
   = length lasso + Nat.b2n (Nat.odd (length lasso)))%nat.
Proof.
  unfold array_split. cbn [fst snd].
  pose proof (Nat.div2_odd (S (length lasso))) as D.
  rewrite Nat.odd_succ, <- Nat.negb_odd in D.
  split; [apply firstn_skipn|].
  rewrite length_firstn.
  destruct (Nat.odd (length lasso)); cbn [negb Nat.b2n] in *; lia.
Qed.

Lemma LinearRing_coords_open (first last : coord) (middle : list coord) :
  coord_eqb first last = false ->
  LinearRing_coords (first :: middle ++ [last])
  = (first :: middle ++ [last]) ++ [first].
Proof.
  intros E. unfold LinearRing_coords.
  change (first :: middle ++ [last]) with ((first :: middle) ++ [last]).
  rewrite rev_app_distr. cbn [rev app]. now rewrite E.
Qed.

(** C1: a gesture of at least four points whose two index halves - the
    first [ceil (n / 2)] points and the remaining ones - have an empty
    intersection comes back as it is, point for point and in the same
    order, with its first point appended once more. *)
Theorem simple_loop_closed (K : Kernel) (lasso : list coord) :
  empty_means_disjoint K ->
  (4 <= length lasso)%nat ->
  intersection K (firstn (Nat.div2 (S (length lasso))) lasso)
                 (skipn (Nat.div2 (S (length lasso))) lasso)
  = GeometryCollection [] ->
  exists first rest,
    lasso = first :: rest /\
    run (get_lasso_area K lasso)
    = ([new_coords (map fst (lasso ++ [first])) (map snd (lasso ++ [first]))],
       Returned).
Proof.
  intros HK L HI.
  change (intersection K (fst (array_split lasso)) (snd (array_split lasso))
          = GeometryCollection []) in HI.
  destruct (array_split_halves lasso) as (Happ & _ & Hlen).
  unfold get_lasso_area.
  replace (length lasso <? 4)%nat with false by (symmetry; apply Nat.ltb_ge; exact L).
  destruct (array_split lasso) as [l1 l2]. cbn [fst snd] in *.
  assert (L1 : (2 <= length l1)%nat) by (destruct (Nat.odd (length lasso)); cbn in Hlen; lia).
  assert (L2 : (2 <= length l2)%nat).
  { rewrite <- Happ, length_app in Hlen, L.
    destruct (Nat.odd _); cbn in Hlen; lia. }
  rewrite (LineString_init_ok l1), bind_ret_l by lia.
  rewrite (LineString_init_ok l2), bind_ret_l by lia.
  rewrite HI.
  destruct l1 as [|first l1]; [cbn in L1; lia|].
  destruct (@exists_last _ l2) as (l2' & last & E2); [intros ->; cbn in L2; lia|].
  exists first, (l1 ++ l2). split; [now rewrite <- Happ|].
  assert (D : coord_eqb first last = false).
  { apply (HK (first :: l1) l2 L1 L2 HI); [now left|].
    rewrite E2. apply in_or_app. right. now left. }
  assert (EL : lasso = first :: (l1 ++ l2') ++ [last]).
  { rewrite <- Happ, E2. cbn. now rewrite app_assoc. }
  cbn [lasso_crosspoint]. rewrite EL at 1 2.
  rewrite (@LinearRing_coords_open first last (l1 ++ l2') D), <- EL.
  reflexivity.
Qed.

(** The concrete scenario of C1: the square gesture comes back as the
    ring [(0,0),(10,0),(10,10),(0,10),(0,0)]. *)
Lemma simple_loop_closed_witness :
  run (get_lasso_area Ref.kernel [(0, 0); (10, 0); (10, 10); (0, 10)])
  = ([new_coords [0; 10; 10; 0; 0] [0; 0; 10; 10; 0]], Returned).
Proof.
  destruct (@simple_loop_closed Ref.kernel [(0, 0); (10, 0); (10, 10); (0, 10)])
    as (first & rest & E & R).
  - exact ref_empty_means_disjoint.
  - cbn. lia.
  - vm_compute. reflexivity.
  - inversion E; subst. exact R.
Defined.

(** The halves of the square gesture, and its ring on the reference
    kernel, by evaluation. *)
Example square_gesture_ring :
  fst (array_split square) = [(0, 0); (10, 0)] /\
  snd (array_split square) = [(10, 10); (0, 10)] /\
  run (get_lasso_area Ref.kernel square)
  = ([new_coords [0; 10; 10; 0; 0] [0; 0; 10; 10; 0]], Returned).
Proof. repeat split; vm_compute; reflexivity. Qed.

(** ** Splitting a region: what the stitch writes out *)

(** The stitch writes the kept sub-line and then the arc, forwards or
    backwards, and nothing after them. *)
Lemma stitch_writes (K : Kernel) (k r : list coord) (x y : list Q) :
  stitch K [k; r] = ([new_coords x y], inr tt) ->
  (x = xs (k ++ r) /\ y = ys (k ++ r)) \/
  (x = xs (k ++ rev r) /\ y = ys (k ++ rev r)).
Proof.
  unfold stitch, xs, ys. rewrite !map_app. split_paths; cbn; intros H;
    inversion H; auto.
Qed.

(** C5: on a parent crossed cleanly twice, the emitted child starts at a
    vertex of the gesture and ends at a vertex of the parent; its last
    coordinate is not its first. *)
Theorem split_child_not_closed :
  intersection Ref.kernel notched_square crossing_line
  = MultiPoint [pt 2 0; pt 2 10] /\
  run (get_multi_area Ref.kernel (notched_square, crossing_line))
  = ([new_coords (xs [pt 2 (-1); pt 2 11; pt 3 10; pt 10 10; pt 10 0; pt 3 0])
                 (ys [pt 2 (-1); pt 2 11; pt 3 10; pt 10 10; pt 10 0; pt 3 0])],
     Returned) /\
  coord_eqb (pt 2 (-1)) (pt 3 0) = false.
Proof. repeat split; vm_compute; reflexivity. Qed.

Example swapped_loci_child_open :
  run (get_multi_area (swap_loci Ref.kernel) (notched_square, crossing_line))
  = ([new_coords (xs [pt 2 (-1); pt 2 11; pt 3 10; pt 10 10; pt 10 0; pt 3 0])
                 (ys [pt 2 (-1); pt 2 11; pt 3 10; pt 10 10; pt 10 0; pt 3 0])],
     Returned).
Proof. vm_compute. reflexivity. Qed.

(** C6: a gesture that cuts a corner of the square makes both crossings
    resolve to the same parent vertex; the second split of the parent then
    has one piece and [split2_old[1]] raises. *)
Theorem corner_cut_raises :
  intersection Ref.kernel square_ring corner_cut = MultiPoint [pt 10 8; pt 8 10] /\
  nearest_points Ref.kernel square_ring (pt 10 8) = pt 10 10 /\
  nearest_points Ref.kernel square_ring (pt 8 10) = pt 10 10 /\
  run (get_multi_area Ref.kernel (square_ring, corner_cut))
  = ([], Raised IndexError).
Proof. repeat split; vm_compute; reflexivity. Qed.

Example swapped_loci_corner_cut :
  run (get_multi_area (swap_loci Ref.kernel) (square_ring, corner_cut))
  = ([], Raised IndexError).
Proof. vm_compute. reflexivity. Qed.

(** The case C6 names: when neither piece of the first split is within
    0.1 px of the second locus, code 0 is emitted and the next statement
    reads the unassigned [split2]. *)
Lemma unknown_then_unbound (K : Kernel) (p0 p1 : list coord)
      (locus at_ cp1 cp2 : coord) (multi : list (list coord)) :
  Qltb (distance K p0 locus) (1 # 10) = false ->
  Qltb (distance K p1 locus) (1 # 10) = false ->
  (split2 <- second_split K [p0; p1] locus at_ ;;
   kept_subline K split2 cp1 cp2 multi)
  = ([ask_redraw 0], inl (Raise UnboundLocalError)).
Proof.
  intros H0 H1. unfold second_split. mred. rewrite H0, H1. reflexivity.
Qed.

(** ** The canvas: which object a drag can change *)

Lemma update_other {A} (l : list A) (i j : nat) (f : A -> A) :
  i <> j -> nth_error (update l i f) j = nth_error l j.
Proof.
  revert i j. induction l as [|a l IH]; intros [|i] [|j] N; cbn; try easy.
  apply IH. congruence.
Qed.

Lemma update_same {A} (l : list A) (i : nat) (f : A -> A) :
  nth_error (update l i f) i = option_map f (nth_error l i).
Proof.
  revert i. induction l as [|a l IH]; intros [|i]; cbn; auto.
Qed.

Lemma slot_current (c : Canvas) (sg : signal) :
  currentObject (slot c sg) = currentObject c.
Proof. now destruct sg. Qed.

Lemma slot_other (c : Canvas) (sg : signal) (j : nat) :
  j <> currentObject c ->
  nth_error (objects (slot c sg)) j = nth_error (objects c) j.
Proof. intros N. destruct sg; cbn; apply update_other; congruence. Qed.

Lemma slots_current (sigs : list signal) (c : Canvas) :
  currentObject (fold_left slot sigs c) = currentObject c.
Proof.
  revert c. induction sigs as [|sg sigs IH]; intros c; cbn; [reflexivity|].
  now rewrite IH, slot_current.
Qed.

Lemma slots_other (sigs : list signal) (c : Canvas) (j : nat) :
  j <> currentObject c ->
  nth_error (objects (fold_left slot sigs c)) j = nth_error (objects c) j.
Proof.
  revert c. induction sigs as [|sg sigs IH]; intros c N; cbn; [reflexivity|].
  rewrite IH by now rewrite slot_current. now apply slot_other.
Qed.

Lemma onselect_frame (c : Canvas) (verts : list coord) :
  currentObject (fst (fst (onselect c verts))) = currentObject c /\
  forall j, j <> currentObject c ->
            nth_error (objects (fst (fst (onselect c verts)))) j
            = nth_error (objects c) j.
Proof.
  unfold onselect.
  destruct (nth_error (objects c) (currentObject c)) as [cur|]; [|easy].
  assert (S : forall j, j <> currentObject c ->
                nth_error (objects (draw_object
                  (set_xy c (Some (xs verts)) (Some (ys verts)))
                  (xs verts) (ys verts))) j = nth_error (objects c) j).
  { intros j N. cbn. rewrite !update_other; congruence. }
  destruct (obj_parent cur) as [p|]; [|easy].
  destruct (nth_error (objects c) p) as [par|]; [|easy].
  destruct (mainobject_of (obj_x par) (obj_y par)) as [[]|m]; easy.
Qed.

Lemma round_other (K : Kernel) (c : Canvas) (verts : list coord) (j : nat) :
  j <> currentObject c ->
  nth_error (objects (gesture_round K c verts)) j = nth_error (objects c) j.
Proof.
  intros N. unfold gesture_round.
  destruct (onselect_frame c verts) as [Hc Ho].
  destruct (onselect c verts) as [[stored reqs] own] eqn:E. cbn [fst] in *.
  rewrite slots_other by congruence. now apply Ho.
Qed.

(** C2: a drag on an object that has a parent leaves the parent's record,
    and with it the parent's coordinate lists, as they were - whether the
    split succeeds, rejects or raises; whatever the engine emits is written
    to the current object only. *)
Theorem parent_never_mutated (K : Kernel) (c : Canvas) (verts : list coord)
        (cur : Object) (p : nat) :
  nth_error (objects c) (currentObject c) = Some cur ->
  obj_parent cur = Some p ->
  p <> currentObject c ->
  nth_error (objects (gesture_round K c verts)) p = nth_error (objects c) p /\
  replies K c verts
  = match option_map (fun par => mainobject_of (obj_x par) (obj_y par))
                     (nth_error (objects c) p) with
    | Some (inr mainobject) => emitted (run (get_multi_area K (mainobject, verts)))
    | Some (inl TypeError) => [ask_redraw 3]
    | _ => []
    end.
Proof.
  intros Hcur Hpar N. split; [now apply round_other|].
  unfold replies, onselect. rewrite Hcur, Hpar.
  destruct (nth_error (objects c) p) as [par|]; [|reflexivity]. cbn [option_map].
  destruct (mainobject_of (obj_x par) (obj_y par)) as [[]|m]; cbn;
    try reflexivity. now rewrite app_nil_r.
Qed.

Lemma parent_never_mutated_witness :
  nth_error (objects (gesture_round Ref.kernel session crossing_line)) 0
  = Some parent_object.
Proof.
  apply (proj1 (@parent_never_mutated Ref.kernel session crossing_line
                  child_object 0%nat eq_refl eq_refl ltac:(cbn; lia))).
Defined.

Lemma rejects_clear (sigs : list signal) (c : Canvas) :
  produced sigs = false -> sigs <> [] ->
  nth_error (objects (fold_left slot sigs c)) (currentObject c)
  = option_map cleared (nth_error (objects c) (currentObject c)).
Proof.
  revert c. induction sigs as [|sg sigs IH]; intros c P N; [contradiction|].
  cbn in P. apply orb_false_iff in P as [Psg P].
  destruct sg as [x y|case]; [discriminate|]. cbn [fold_left slot].
  destruct sigs as [|sg' sigs].
  - cbn. apply update_same.
  - specialize (IH (remove_object c) P ltac:(discriminate)).
    cbn [remove_object set_xy currentObject objects] in IH. rewrite IH.
    rewrite update_same. now destruct (nth_error (objects c) (currentObject c)).
Qed.

Lemma replies_all_or_nothing (K : Kernel) (c : Canvas) (verts : list coord) :
  rejected (replies K c verts) && produced (replies K c verts) = false.
Proof.
  unfold replies, onselect.
  destruct (nth_error (objects c) (currentObject c)) as [cur|]; [|reflexivity].
  destruct (obj_parent cur) as [p|].
  - destruct (nth_error (objects c) p) as [par|]; [|reflexivity].
    destruct (mainobject_of (obj_x par) (obj_y par)) as [[]|m]; try reflexivity.
    cbn [flat_map serve app]. rewrite app_nil_r.
    apply get_multi_area_all_or_nothing.
  - cbn [flat_map serve app]. rewrite app_nil_r.
    apply get_lasso_area_all_or_nothing.
Qed.

(** C8, as stated, does not hold: a rejected redraw of an object that held
    a curve changes the coordinates stored on it. *)
Lemma rejected_round_alters_target :
  replies Ref.kernel session far_gesture = [ask_redraw 2] /\
  nth_error (objects (gesture_round Ref.kernel session far_gesture)) 1
  <> nth_error (objects session) 1.
Proof. split; [vm_compute; reflexivity | vm_compute; discriminate]. Qed.

(** C8 (amended): after a drag that the engine or the canvas rejects, the
    current object stores no coordinates (whatever it stored before is
    cleared, and the raw gesture is not kept), no curve is written to it,
    and every other object, the parent among them, is as before. *)
Theorem rejected_round_clears_target (K : Kernel) (c : Canvas)
        (verts : list coord) (cur : Object) :
  nth_error (objects c) (currentObject c) = Some cur ->
  rejected (replies K c verts) = true ->
  nth_error (objects (gesture_round K c verts)) (currentObject c)
  = Some (cleared cur) /\
  produced (replies K c verts) = false /\
  forall j, j <> currentObject c ->
            nth_error (objects (gesture_round K c verts)) j
            = nth_error (objects c) j.
Proof.
  intros Hcur R.
  pose proof (replies_all_or_nothing K c verts) as A.
  rewrite R in A. cbn [andb] in A.
  split; [|split; [exact A | intros j; apply round_other]].
  assert (N : replies K c verts <> []) by (intros E; rewrite E in R; discriminate).
  unfold gesture_round.
  assert (S : nth_error (objects (draw_object
                  (set_xy c (Some (xs verts)) (Some (ys verts)))
                  (xs verts) (ys verts))) (currentObject c)
              = Some {| obj_x := Some (xs verts); obj_y := Some (ys verts);
                        obj_parent := obj_parent cur |}).
  { cbn. rewrite !update_same, Hcur. reflexivity. }
  revert A N. generalize (replies K c verts) as sigs. unfold replies.
  intros sigs A N.
  assert (F : forall stored,
             currentObject stored = currentObject c ->
             nth_error (objects stored) (currentObject c)
             = Some {| obj_x := Some (xs verts); obj_y := Some (ys verts);
                       obj_parent := obj_parent cur |} ->
             nth_error (objects (fold_left slot sigs stored)) (currentObject c)
             = Some (cleared cur)).
  { intros stored Hc Hs. rewrite <- Hc, (rejects_clear _ A N), Hc, Hs. reflexivity. }
  revert R. unfold replies, onselect. rewrite Hcur.
  destruct (obj_parent cur) as [p|].
  - destruct (nth_error (objects c) p) as [par|]; [|discriminate].
    destruct (mainobject_of (obj_x par) (obj_y par)) as [[]|m];
      try discriminate; intros _; now apply F.
  - intros _. now apply F.
Qed.

Lemma rejected_round_clears_target_witness :
  nth_error (objects (gesture_round Ref.kernel session far_gesture)) 1
  = Some (cleared child_object).
Proof.
  apply (proj1 (@rejected_round_clears_target Ref.kernel session far_gesture
                  child_object eq_refl ltac:(vm_compute; reflexivity))).
Defined.

(** ** The loop slot: what it can emit *)

Lemma closes_wrap (a : Q) (l : list Q) : closes ((a :: l) ++ [a]) = true.
Proof.
  unfold closes. cbn [app rev]. rewrite rev_app_distr. cbn [rev app].
  apply Qeq_bool_iff. reflexivity.
Qed.

Lemma closes_map (f : coord -> Q) (first last : coord) (cs r : list coord) :
  rev (first :: cs) = last :: r -> f first == f last ->
  closes (map f (first :: cs)) = true.
Proof.
  intros R E. unfold closes. cbn [map].
  change (f first :: map f cs) with (map f (first :: cs)).
  rewrite <- map_rev, R. cbn [map]. now apply Qeq_bool_iff.
Qed.

Lemma LinearRing_coords_closes (cs : list coord) :
  cs <> [] ->
  closes (xs (LinearRing_coords cs)) = true /\
  closes (ys (LinearRing_coords cs)) = true.
Proof.
  intros N. unfold LinearRing_coords.
  destruct cs as [|first cs]; [contradiction|].
  destruct (rev (first :: cs)) as [|last r] eqn:R.
  { apply (f_equal (@length _)) in R. rewrite length_rev in R. discriminate. }
  destruct (coord_eqb first last) eqn:E.
  - apply coord_eqb_eq in E as [Ex Ey].
    split; [apply (@closes_map fst first last cs r R Ex)
           | apply (@closes_map snd first last cs r R Ey)].
  - unfold xs, ys. rewrite !map_app. cbn [map]. split; apply closes_wrap.
Qed.

Lemma lasso_crosspoint_curve (lasso : list coord) (g : Geometry) (x y : list Q) :
  In (new_coords x y) (fst (lasso_crosspoint lasso g)) ->
  x = xs (LinearRing_coords lasso) /\ y = ys (LinearRing_coords lasso).
Proof.
  unfold lasso_crosspoint, ret, raise, emit, return_, bind.
  destruct g as [c|cs|ps|ls|[|g gs]]; cbn [get_intersection_point].
  - cbn. intros [].
  - destruct (resolve_rows cs) as [[]|p]; cbn; intros [H|[]] || intros []; discriminate.
  - destruct (resolve_rows ps) as [[]|p]; cbn; intros [H|[]] || intros []; discriminate.
  - destruct (resolve_lines ls) as [[]|tmp]; cbn;
      try (intros [H|[]] || intros []; discriminate);
      destruct (resolve_rows tmp) as [[]|p]; cbn;
      intros [H|[]] || intros []; discriminate.
  - cbn. intros [H|[]]. inversion H. auto.
  - cbn. intros [H|[]]. discriminate.
Qed.

Ltac split_paths_keeping_pairs :=
  repeat (cbv beta iota zeta fix delta
            [bind ret emit return_ raise item item_last local app nth_error];
          match goal with
          | |- context [match ?x with _ => _ end] =>
              lazymatch x with
              | context [match _ with _ => _ end] => fail
              | _ => destruct x
              end
          end).

(** What the loop slot does once a crosspoint [p] has been resolved. *)
Lemma get_lasso_area_after_crosspoint (K : Kernel) (lasso : list coord) :
  (4 <= length lasso)%nat ->
  forall s r,
    lasso_crosspoint lasso
      (intersection K (fst (array_split lasso)) (snd (array_split lasso))) = (s, r) ->
    match r with
    | inl _ => emitted (run (get_lasso_area K lasso)) = s
    | inr _ =>
        s = [] /\
        (emitted (run (get_lasso_area K lasso)) = [] \/
         exists c a b,
           emitted (run (get_lasso_area K lasso))
           = [new_coords (xs ((c :: a) ++ b) ++ [fst c])
                         (ys ((c :: a) ++ b) ++ [snd c])])
    end.
Proof.
  intros L s r E. rewrite emitted_run. unfold get_lasso_area.
  replace (length lasso <? 4)%nat with false by (symmetry; apply Nat.ltb_ge; exact L).
  destruct (array_split_halves lasso) as (Happ & _ & Hlen).
  destruct (array_split lasso) as [l1 l2]. cbn [fst snd] in *.
  assert (L1 : (2 <= length l1)%nat) by (destruct (Nat.odd (length lasso)); cbn in Hlen; lia).
  assert (L2 : (2 <= length l2)%nat).
  { rewrite <- Happ, length_app in Hlen, L. destruct (Nat.odd _); cbn in Hlen; lia. }
  rewrite (LineString_init_ok l1), bind_ret_l by lia.
  rewrite (LineString_init_ok l2), bind_ret_l by lia.
  rewrite E.
  destruct (lasso_crosspoint_cases lasso (intersection K l1 l2))
    as [(x & y & E')|[E'|[[p E']|[e E']]]]; rewrite E' in E; inversion E; subst;
    try reflexivity.
  split; [reflexivity|].
  split_paths_keeping_pairs;
    cbn [fst snd concat app]; try (left; reflexivity);
    right; do 3 eexists; rewrite ?app_nil_r; reflexivity.
Qed.

Lemma short_lasso_emits_nothing (K : Kernel) (lasso : list coord) :
  (length lasso < 4)%nat -> emitted (run (get_lasso_area K lasso)) = [].
Proof.
  intros H. apply Nat.ltb_lt in H. unfold get_lasso_area. now rewrite H.
Qed.

(** X1: every curve the loop slot emits is a closed ring: its last
    coordinate equals its first, on both axes. *)
Theorem lasso_curve_is_closed (K : Kernel) (lasso : list coord) (x y : list Q) :
  In (new_coords x y) (emitted (run (get_lasso_area K lasso))) ->
  closes x = true /\ closes y = true.
Proof.
  intros H.
  destruct (Nat.lt_ge_cases (length lasso) 4) as [S|L].
  { rewrite (short_lasso_emits_nothing K lasso S) in H. destruct H. }
  pose proof (@get_lasso_area_after_crosspoint K lasso L) as A.
  destruct (lasso_crosspoint lasso
              (intersection K (fst (array_split lasso)) (snd (array_split lasso))))
    as [s r] eqn:E.
  specialize (A s r eq_refl). destruct r as [e|p].
  - rewrite A in H.
    assert (H' : In (new_coords x y) (fst (lasso_crosspoint lasso
              (intersection K (fst (array_split lasso)) (snd (array_split lasso))))))
      by now rewrite E.
    apply lasso_crosspoint_curve in H' as [-> ->].
    apply LinearRing_coords_closes. destruct lasso; [cbn in L; lia | discriminate].
  - destruct A as [_ [A|(c & a & b & A)]]; rewrite A in H; [destruct H|].
    destruct H as [H|[]]. inversion H. subst.
    unfold xs, ys. cbn [app map]. split; apply closes_wrap.
Qed.

Lemma lasso_curve_is_closed_witness :
  closes (xs square_ring) = true /\ closes (ys square_ring) = true.
Proof.
  apply (@lasso_curve_is_closed Ref.kernel square).
  vm_compute. left. reflexivity.
Defined.

(** X2: the loop slot emits at most one signal, and the only reject code
    it ever reports is 1. *)
Theorem lasso_emits_one_signal (K : Kernel) (lasso : list coord) :
  emitted (run (get_lasso_area K lasso)) = [] \/
  emitted (run (get_lasso_area K lasso)) = [ask_redraw 1] \/
  exists x y, emitted (run (get_lasso_area K lasso)) = [new_coords x y].
Proof.
  destruct (Nat.lt_ge_cases (length lasso) 4) as [S|L].
  { left. now apply short_lasso_emits_nothing. }
  pose proof (@get_lasso_area_after_crosspoint K lasso L) as A.
  destruct (lasso_crosspoint_cases lasso
              (intersection K (fst (array_split lasso)) (snd (array_split lasso))))
    as [(x & y & E)|[E|[[p E]|[e E]]]]; specialize (A _ _ E); cbn in A.
  - right; right. eauto.
  - right; left. exact A.
  - destruct A as [_ [A|(c & a & b & A)]]; [left; exact A | right; right; eauto].
  - left. exact A.
Qed.

Lemma resolve_rows_no_ValueError (cs : list coord) : resolve_rows cs <> inl ValueError.
Proof. destruct cs; [discriminate | rewrite resolve_rows_nonempty; discriminate]. Qed.

Lemma resolve_lines_no_ValueError (ls : list (list coord)) :
  resolve_lines ls <> inl ValueError.
Proof.
  induction ls as [|l ls IH]; cbn; [discriminate|].
  pose proof (resolve_rows_no_ValueError l) as R.
  destruct (resolve_rows l) as [[]|p]; try discriminate; try contradiction.
  destruct (resolve_lines ls) as [[]|ps]; try discriminate; contradiction.
Qed.

Lemma resolver_ValueError_only_on_collection (g : Geometry) :
  get_intersection_point g = inl ValueError -> exists gs, g = GeometryCollection gs.
Proof.
  destruct g as [c|cs|ps|ls|gs]; cbn; intros H; eauto; exfalso.
  - discriminate.
  - now apply (resolve_rows_no_ValueError cs).
  - now apply (resolve_rows_no_ValueError ps).
  - pose proof (resolve_lines_no_ValueError ls) as R.
    destruct (resolve_lines ls) as [e|tmp]; [congruence|].
    now apply (resolve_rows_no_ValueError tmp).
Qed.

(** X3: for a gesture of at least four points the loop slot reports reject
    code 1 exactly when the intersection of the two halves is a non-empty
    geometry collection; a [Point], [LineString], [MultiPoint] or
    [MultiLineString] intersection, however many loci it has, is never
    rejected. *)
Theorem lasso_reject_iff_collection (K : Kernel) (lasso : list coord) :
  (4 <= length lasso)%nat ->
  (emitted (run (get_lasso_area K lasso)) = [ask_redraw 1] <->
   exists g gs,
     intersection K (firstn (Nat.div2 (S (length lasso))) lasso)
                    (skipn (Nat.div2 (S (length lasso))) lasso)
     = GeometryCollection (g :: gs)).
Proof.
  intros L.
  change (firstn (Nat.div2 (S (length lasso))) lasso) with (fst (array_split lasso)).
  change (skipn (Nat.div2 (S (length lasso))) lasso) with (snd (array_split lasso)).
  pose proof (@get_lasso_area_after_crosspoint K lasso L) as A.
  set (raw := intersection K (fst (array_split lasso)) (snd (array_split lasso))) in *.
  destruct (lasso_crosspoint lasso raw) as [s r] eqn:E.
  specialize (A s r eq_refl). split.
  - intros H. unfold lasso_crosspoint in E.
    destruct raw as [c|cs|ps|ls|[|g gs]] eqn:R; [| | | | |eauto]; exfalso.
    + cbn in E. inversion E; subst. destruct A as [_ [A|(c0 & a & b & A)]]; congruence.
    + pose proof (@resolver_ValueError_only_on_collection (LineString cs)) as V.
      destruct (get_intersection_point (LineString cs)) as [[]|p];
        cbn in E; inversion E; subst;
        try (destruct A as [_ [A|(c0 & a & b & A)]]; congruence);
        try congruence.
      destruct (V eq_refl); discriminate.
    + pose proof (@resolver_ValueError_only_on_collection (MultiPoint ps)) as V.
      destruct (get_intersection_point (MultiPoint ps)) as [[]|p];
        cbn in E; inversion E; subst;
        try (destruct A as [_ [A|(c0 & a & b & A)]]; congruence);
        try congruence.
      destruct (V eq_refl); discriminate.
    + pose proof (@resolver_ValueError_only_on_collection (MultiLineString ls)) as V.
      destruct (get_intersection_point (MultiLineString ls)) as [[]|p];
        cbn in E; inversion E; subst;
        try (destruct A as [_ [A|(c0 & a & b & A)]]; congruence);
        try congruence.
      destruct (V eq_refl); discriminate.
    + cbn in E. inversion E; subst. congruence.
  - intros (g & gs & R). rewrite R in E. cbn in E. inversion E; subst. exact A.
Qed.

Lemma lasso_reject_iff_collection_witness :
  emitted (run (get_lasso_area Ref.kernel square)) = [ask_redraw 1] <->
  exists g gs,
    intersection Ref.kernel (fst (array_split square)) (snd (array_split square))
    = GeometryCollection (g :: gs).
Proof. apply lasso_reject_iff_collection. cbn. lia. Defined.

(** X4: when the kernel reports the intersection of the halves as a
    geometry without coordinates (an empty [LineString] or [MultiPoint]),
    the loop slot raises [IndexError] and emits nothing. *)
Theorem lasso_empty_geometry_raises (K : Kernel) (lasso : list coord) :
  (4 <= length lasso)%nat ->
  intersection K (firstn (Nat.div2 (S (length lasso))) lasso)
                 (skipn (Nat.div2 (S (length lasso))) lasso) = LineString [] \/
  intersection K (firstn (Nat.div2 (S (length lasso))) lasso)
                 (skipn (Nat.div2 (S (length lasso))) lasso) = MultiPoint [] ->
  run (get_lasso_area K lasso) = ([], Raised IndexError).
Proof.
  intros L HI.
  change (firstn (Nat.div2 (S (length lasso))) lasso)
    with (fst (array_split lasso)) in HI.
  change (skipn (Nat.div2 (S (length lasso))) lasso)
    with (snd (array_split lasso)) in HI. unfold get_lasso_area.
  replace (length lasso <? 4)%nat with false by (symmetry; apply Nat.ltb_ge; exact L).
  destruct (array_split_halves lasso) as (Happ & _ & Hlen).
  destruct (array_split lasso) as [l1 l2]. cbn [fst snd] in *.
  assert (L1 : (2 <= length l1)%nat) by (destruct (Nat.odd (length lasso)); cbn in Hlen; lia).
  assert (L2 : (2 <= length l2)%nat).
  { rewrite <- Happ, length_app in Hlen, L. destruct (Nat.odd _); cbn in Hlen; lia. }
  rewrite (LineString_init_ok l1), bind_ret_l by lia.
  rewrite (LineString_init_ok l2), bind_ret_l by lia.
  destruct HI as [-> | ->]; reflexivity.
Qed.

Lemma lasso_empty_geometry_raises_witness :
  run (get_lasso_area (empty_as_linestring Ref.kernel) square)
  = ([], Raised IndexError).
Proof.
  apply lasso_empty_geometry_raises; [cbn; lia | left; vm_compute; reflexivity].
Defined.

(** ** The split slot: what it can emit *)

Lemma nth_error_0_1 {A} (l : list A) (a : A) :
  nth_error l 0 = Some a \/ nth_error l 1 = Some a -> In a l.
Proof. intros [H|H]; eapply nth_error_In; eassumption. Qed.

Lemma second_split_piece (K : Kernel) (pieces : list (list coord))
      (locus at_ : coord) (sg : list signal) (sp : list (list coord)) :
  second_split K pieces locus at_ = (sg, inr (Some sp)) ->
  sg = [] /\ exists p, In p pieces /\ sp = split K p at_.
Proof.
  unfold second_split, item.
  destruct (nth_error pieces 0) as [p0|] eqn:E0; [|discriminate].
  rewrite bind_ret_l.
  destruct (Qltb (distance K p0 locus) (1 # 10)).
  - intros H. inversion H. split; [reflexivity|]. exists p0. split; [|reflexivity].
    apply nth_error_0_1. now left.
  - destruct (nth_error pieces 1) as [p1|] eqn:E1; [|discriminate].
    rewrite bind_ret_l.
    destruct (Qltb (distance K p1 locus) (1 # 10)); [|discriminate].
    intros H. inversion H. split; [reflexivity|]. exists p1. split; [|reflexivity].
    apply nth_error_0_1. now right.
Qed.

Lemma kept_subline_piece (K : Kernel) (s : list (list coord)) (cp1 cp2 : coord)
      (multi : list (list coord)) (multi' : list (list coord)) :
  kept_subline K (Some s) cp1 cp2 multi = ([], inr multi') ->
  exists k, In k s /\ multi' = multi ++ [k].
Proof.
  unfold kept_subline, local, item. rewrite bind_ret_l.
  destruct (nth_error s 0) as [s0|] eqn:E0; [|discriminate].
  rewrite bind_ret_l.
  destruct (Qltb (distance K s0 cp1) 1 && Qltb (distance K s0 cp2) 1).
  - intros H. inversion H. exists s0. split; [|reflexivity].
    apply nth_error_0_1. now left.
  - destruct (nth_error s 1) as [s1|] eqn:E1; [|discriminate].
    rewrite bind_ret_l.
    destruct (Qltb (distance K s1 cp1) 1 && Qltb (distance K s1 cp2) 1); [|discriminate].
    intros H. inversion H. exists s1. split; [|reflexivity].
    apply nth_error_0_1. now right.
Qed.

Lemma seam_free_arc_piece (K : Kernel) (s : list (list coord)) (maincell : list coord)
      (multi : list (list coord)) (multi' : list (list coord)) :
  seam_free_arc K (Some s) maincell multi = ([], inr multi') ->
  exists r, In r s /\ multi' = multi ++ [r].
Proof.
  intros H.
  assert (C : forall sg res, seam_free_arc K (Some s) maincell multi = (sg, res) ->
              sg = [] -> forall m, res = inr m ->
              exists r, In r s /\ m = multi ++ [r]).
  { unfold seam_free_arc. split_paths_keeping_pairs;
      cbn [app]; intros sg res E; inversion E; subst; intros Hs m Hm;
      try discriminate; inversion Hm; subst;
      eexists; (split; [|reflexivity]); cbn; auto. }
  exact (C _ _ H eq_refl _ eq_refl).
Qed.

Ltac no_curve := cbn; intros H; repeat (destruct H as [H|H]; [discriminate H|]); destruct H.

Lemma split_region_curve (K : Kernel) (maincell newline ps : list coord)
      (x y : list Q) :
  In (new_coords x y) (fst (split_region K maincell newline ps)) ->
  exists l0 l1 k r,
    nth_error ps 0 = Some l0 /\ nth_error ps 1 = Some l1 /\
    In k (twice_split K newline (nearest_points K newline l0)
                      (nearest_points K newline l1)) /\
    In r (twice_split K maincell (nearest_points K maincell l0)
                      (nearest_points K maincell l1)) /\
    ((x = xs (k ++ r) /\ y = ys (k ++ r)) \/
     (x = xs (k ++ rev r) /\ y = ys (k ++ rev r))).
Proof.
  unfold split_region.
  destruct ps as [|l0 [|l1 ps]]; [no_curve | no_curve |].
  mred. rewrite resolve_all_points. mred.
  destruct (second_split_cases K (split K newline (nearest_points K newline l0))
              l1 (nearest_points K newline l1)) as [[s E1]|[E1|[e E1]]];
    rewrite E1; mred; [| no_curve | no_curve].
  apply second_split_piece in E1 as (_ & p & Hp & ->).
  destruct (kept_subline_cases K (split K p (nearest_points K newline l1))
              (nearest_points K newline l0) (nearest_points K newline l1) [])
    as [[k E2]|[E2|[e E2]]]; rewrite E2; mred; [| | no_curve].
  - apply kept_subline_piece in E2 as (k' & Hk & Ek). cbn in Ek. inversion Ek; subst k'.
    destruct (second_split_cases K (split K maincell (nearest_points K maincell l0))
                (nearest_points K maincell l1) (nearest_points K maincell l1))
      as [[s' E3]|[E3|[e E3]]]; rewrite E3; mred; [| no_curve | no_curve].
    apply second_split_piece in E3 as (_ & q & Hq & ->).
    destruct (seam_free_arc_cases K (split K q (nearest_points K maincell l1))
                maincell [k]) as [[r E4]|[E4|[e E4]]];
      rewrite E4; mred; [| | no_curve].
    + apply seam_free_arc_piece in E4 as (r' & Hr & Er). cbn in Er.
      inversion Er; subst r'.
      destruct (stitch_cases K [k; r]) as [(x' & y' & E5 & _)|[e E5]];
        rewrite E5; [|no_curve].
      cbn. intros [H|[]]. inversion H; subst x' y'.
      exists l0, l1, k, r. repeat split.
      * unfold twice_split. apply in_flat_map. eauto.
      * unfold twice_split. apply in_flat_map. eauto.
      * now apply (@stitch_writes K k r x y).
    + destruct (stitch_cases K [k]) as [(x' & y' & _ & L)|[e E5]];
        [cbn in L; lia | rewrite E5; no_curve].
  - destruct (second_split_cases K (split K maincell (nearest_points K maincell l0))
                (nearest_points K maincell l1) (nearest_points K maincell l1))
      as [[s' E3]|[E3|[e E3]]]; rewrite E3; mred; [| no_curve | no_curve].
    destruct (seam_free_arc_cases K s' maincell []) as [[r E4]|[E4|[e E4]]];
      rewrite E4; mred; [| | no_curve].
    + destruct (stitch_cases K [r]) as [(x' & y' & _ & L)|[e E5]];
        [cbn in L; lia | rewrite E5; no_curve].
    + destruct (stitch_cases K []) as [(x' & y' & _ & L)|[e E5]];
        [cbn in L; lia | rewrite E5; no_curve].
Qed.

Lemma get_multi_area_signals (K : Kernel) (parent gesture : list coord) :
  fst (get_multi_area K (parent, gesture)) = [] \/
  fst (get_multi_area K (parent, gesture)) = [ask_redraw 2] \/
  fst (get_multi_area K (parent, gesture)) = [ask_redraw 4] \/
  exists ps,
    intersection K parent gesture = MultiPoint ps /\ (length ps <= 2)%nat /\
    fst (get_multi_area K (parent, gesture))
    = fst (split_region K parent gesture ps).
Proof.
  unfold get_multi_area.
  destruct (length gesture <? 4)%nat; [left; reflexivity|].
  destruct (Nat.eq_dec (length parent) 1) as [P1|P1].
  { destruct parent as [|c [|d parent]]; try discriminate. left. reflexivity. }
  rewrite (LineString_init_ok parent P1), bind_ret_l.
  destruct (Nat.eq_dec (length gesture) 1) as [G1|G1].
  { destruct gesture as [|c [|d gesture]]; try discriminate. left. reflexivity. }
  rewrite (LineString_init_ok gesture G1), bind_ret_l.
  destruct (intersects K gesture parent); [|right; left; reflexivity].
  destruct (intersection K parent gesture) as [?|?|ps|?|?];
    try (right; left; reflexivity).
  destruct (2 <? length ps)%nat eqn:L; [right; right; left; reflexivity|].
  right; right; right. exists ps. apply Nat.ltb_ge in L. auto.
Qed.

Lemma split_region_codes (K : Kernel) (maincell newline ps : list coord) :
  forallb split_signal (fst (split_region K maincell newline ps)) = true.
Proof.
  unfold split_region.
  destruct ps as [|locus0 [|locus1 ps]]; [reflexivity | reflexivity |].
  mred. rewrite resolve_all_points. mred.
  destruct (second_split_cases K (split K newline (nearest_points K newline locus0))
              locus1 (nearest_points K newline locus1)) as [[s ->]|[->|[e ->]]];
    mred; [| reflexivity | reflexivity].
  destruct (kept_subline_cases K s (nearest_points K newline locus0)
              (nearest_points K newline locus1) []) as [[k ->]|[->|[e ->]]];
    mred; [| | reflexivity].
  - destruct (second_split_cases K (split K maincell (nearest_points K maincell locus0))
                (nearest_points K maincell locus1) (nearest_points K maincell locus1))
      as [[s' ->]|[->|[e ->]]]; mred; [| reflexivity | reflexivity].
    destruct (seam_free_arc_cases K s' maincell [k]) as [[r ->]|[->|[e ->]]];
      mred; [| | reflexivity].
    + destruct (stitch_cases K [k; r]) as [(x & y & -> & _)|[e ->]]; reflexivity.
    + destruct (stitch_cases K [k]) as [(x & y & -> & _)|[e ->]]; reflexivity.
  - destruct (second_split_cases K (split K maincell (nearest_points K maincell locus0))
                (nearest_points K maincell locus1) (nearest_points K maincell locus1))
      as [[s' ->]|[->|[e ->]]]; mred; [| reflexivity | reflexivity].
    destruct (seam_free_arc_cases K s' maincell []) as [[r ->]|[->|[e ->]]];
      mred; [| | reflexivity].
    + destruct (stitch_cases K [r]) as [(x & y & -> & _)|[e ->]]; reflexivity.
    + destruct (stitch_cases K []) as [(x & y & -> & _)|[e ->]]; reflexivity.
Qed.

(** X5: the split slot reports only the reject codes 0, 2 and 4.  Code 1
    is never reported: the resolver is only ever handed single points,
    which it returns as they are, so the [except ValueError] branch of
    lines 1044-1046 cannot be taken. *)
Theorem split_reject_codes (K : Kernel) (lassolist : list coord * list coord) :
  forallb split_signal (emitted (run (get_multi_area K lassolist))) = true.
Proof.
  rewrite emitted_run. destruct lassolist as [parent gesture].
  destruct (get_multi_area_signals K parent gesture)
    as [E|[E|[E|(ps & _ & _ & E)]]]; rewrite E; try reflexivity.
  apply split_region_codes.
Qed.

(** X6: a curve emitted by the split slot is one piece of the gesture,
    split at the vertices nearest to the two crossing loci, followed by one
    piece of the parent split the same way, written forwards or backwards;
    no other coordinate is added. *)
Theorem split_child_composition (K : Kernel) (parent gesture : list coord)
        (x y : list Q) :
  In (new_coords x y) (emitted (run (get_multi_area K (parent, gesture)))) ->
  exists l0 l1 k r,
    intersection K parent gesture = MultiPoint [l0; l1] /\
    In k (twice_split K gesture (nearest_points K gesture l0)
                      (nearest_points K gesture l1)) /\
    In r (twice_split K parent (nearest_points K parent l0)
                      (nearest_points K parent l1)) /\
    ((x = map fst (k ++ r) /\ y = map snd (k ++ r)) \/
     (x = map fst (k ++ rev r) /\ y = map snd (k ++ rev r))).
Proof.
  rewrite emitted_run.
  destruct (get_multi_area_signals K parent gesture)
    as [E|[E|[E|(ps & HI & L & E)]]]; rewrite E; try no_curve.
  intros H. apply split_region_curve in H as (l0 & l1 & k & r & H0 & H1 & Hk & Hr & F).
  exists l0, l1, k, r. repeat split; try assumption.
  rewrite HI. destruct ps as [|a [|b [|c ps]]]; cbn in *; try discriminate; try lia.
  congruence.
Qed.

Lemma split_child_composition_witness :
  exists l0 l1 k r,
    intersection Ref.kernel notched_square crossing_line = MultiPoint [l0; l1] /\
    In k (twice_split Ref.kernel crossing_line
            (nearest_points Ref.kernel crossing_line l0)
            (nearest_points Ref.kernel crossing_line l1)) /\
    In r (twice_split Ref.kernel notched_square
            (nearest_points Ref.kernel notched_square l0)
            (nearest_points Ref.kernel notched_square l1)) /\
    (([2; 2; 3; 10; 10; 3] = map fst (k ++ r) /\
      [-(1); 11; 10; 10; 0; 0] = map snd (k ++ r)) \/
     ([2; 2; 3; 10; 10; 3] = map fst (k ++ rev r) /\
      [-(1); 11; 10; 10; 0; 0] = map snd (k ++ rev r))).
Proof.
  apply (@split_child_composition Ref.kernel notched_square crossing_line).
  vm_compute. left. reflexivity.
Defined.

(** ** The resolver: how far the resolved point can be from the cluster *)

Lemma Qsum_round_error (l : list Q) :
  Qabs (Qsum (map np_round l) - Qsum l) <= (1 # 2) * inject_Z (Z.of_nat (length l)).
Proof.
  induction l as [|q l IH]; cbn [map Qsum fold_right length].
  - apply Qabs_Qle_condition.
    change (inject_Z (Z.of_nat 0)) with 0. split; lra.
  - pose proof (np_round_error q) as R.
    apply Qabs_Qle_condition in R. apply Qabs_Qle_condition in IH.
    apply Qabs_Qle_condition.
    rewrite Nat2Z.inj_succ, <- Z.add_1_r, inject_Z_plus.
    change (inject_Z 1) with 1. unfold Qsum in *. split; lra.
Qed.

Lemma mean_round_error (l : list Q) :
  l <> [] -> Qabs (mean (map np_round l) - mean l) <= 1 # 2.
Proof.
  intros N. unfold mean. rewrite length_map.
  pose proof (Qsum_round_error l) as S.
  set (n := inject_Z (Z.of_nat (length l))) in *.
  assert (P : 0 < n).
  { unfold n. change 0 with (inject_Z 0). rewrite <- Zlt_Qlt.
    destruct l; [contradiction | cbn [length]; lia]. }
  assert (E : Qsum (map np_round l) / n - Qsum l / n
              == (Qsum (map np_round l) - Qsum l) / n) by (field; lra).
  rewrite E. apply Qabs_Qle_condition in S. apply Qabs_Qle_condition.
  split.
  - apply Qle_shift_div_l; [exact P | lra].
  - apply Qle_shift_div_r; [exact P | lra].
Qed.

Lemma exact_axis_error (l : list Q) :
  l <> [] -> Qabs (inject_Z (exact_axis l) - mean l) <= 1.
Proof.
  intros N. unfold exact_axis.
  pose proof (np_round_error (mean (map inject_Z (map np_round_Z l)))) as R.
  pose proof (mean_round_error N) as M.
  unfold np_round in R, M. rewrite <- (map_map np_round_Z inject_Z) in M.
  apply Qabs_Qle_condition in R. apply Qabs_Qle_condition in M.
  apply Qabs_Qle_condition. split; lra.
Qed.

(** X7: a cluster with coordinates in range is resolved to a point within
    one pixel, on each axis, of the mean of its members. *)
Theorem resolved_point_accuracy (B : Z) (ps : list coord) (p : coord) :
  in_range B ps ->
  get_intersection_point (MultiPoint ps) = inr p ->
  Qabs (fst p - mean (map fst ps)) <= 1 /\
  Qabs (snd p - mean (map snd ps)) <= 1.
Proof.
  intros R. cbn [get_intersection_point]. intros H.
  destruct ps as [|q ps]; [discriminate|].
  rewrite (@resolve_rows_exact B) in H by (discriminate || exact R).
  inversion H as [E]. clear H E. unfold exact_resolution. cbn [fst snd].
  split; apply exact_axis_error; discriminate.
Qed.

Lemma resolved_point_accuracy_witness :
  Qabs (fst (pt 25 0) - mean (map fst [(2 # 5, 0); (50, 0)])) <= 1 /\
  Qabs (snd (pt 25 0) - mean (map snd [(2 # 5, 0); (50, 0)])) <= 1.
Proof.
  apply (@resolved_point_accuracy 50).
  - split; [repeat constructor; vm_compute; discriminate | vm_compute; reflexivity].
  - vm_compute. reflexivity.
Defined.

Lemma Qsum_constant (v : Q) (l : list Q) :
  Forall (fun q => q = v) l ->
  Qsum l == inject_Z (Z.of_nat (length l)) * v.
Proof.
  induction 1 as [|q l -> _ IH]; cbn [Qsum fold_right length].
  - change (inject_Z (Z.of_nat 0)) with 0. ring.
  - unfold Qsum in IH. rewrite IH, Nat2Z.inj_succ, <- Z.add_1_r, inject_Z_plus.
    change (inject_Z 1) with 1. ring.
Qed.

Lemma mean_constant (z : Z) (l : list Q) :
  l <> [] -> Forall (fun q => q = inject_Z z) l ->
  np_round (mean l) = inject_Z z.
Proof.
  intros N F. rewrite <- (np_round_integer z).
  unfold np_round. f_equal. apply np_round_Z_compat.
  unfold mean. rewrite (Qsum_constant F).
  assert (P : ~ inject_Z (Z.of_nat (length l)) == 0).
  { change 0 with (inject_Z 0). rewrite inject_Z_injective.
    destruct l; [contradiction | cbn [length]; lia]. }
  field. exact P.
Qed.

Lemma same_pixel_cluster (B : Z) (ps : list coord) (c : coord) :
  ps <> [] ->
  in_range B ps ->
  Forall (fun q => round_coord q = c) ps ->
  get_intersection_point (MultiPoint ps) = inr c.
Proof.
  intros N R F. cbn [get_intersection_point].
  rewrite (@resolve_rows_exact B) by assumption. f_equal.
  destruct ps as [|q ps]; [contradiction|].
  assert (C : c = (inject_Z (np_round_Z (fst q)), inject_Z (np_round_Z (snd q)))).
  { inversion F; subst. reflexivity. }
  unfold exact_resolution, exact_axis. rewrite !map_map. rewrite C.
  f_equal;
    match goal with
    | |- inject_Z (np_round_Z ?m) = _ => change (inject_Z (np_round_Z m)) with (np_round m)
    end;
    apply mean_constant; try discriminate;
    apply Forall_map; (eapply Forall_impl; [|exact F]);
    intros a Ha; rewrite C in Ha; unfold round_coord, np_round in Ha;
    inversion Ha; reflexivity.
Qed.

(** X8: a cluster with coordinates in range whose members all round to
    the same pixel resolves to that pixel. *)
Theorem cluster_collapses_to_pixel (B : Z) (ps : list coord) (kx ky : Z) :
  ps <> [] ->
  in_range B ps ->
  Forall (fun q => nearest_even (fst q) kx /\ nearest_even (snd q) ky) ps ->
  get_intersection_point (MultiPoint ps) = inr (inject_Z kx, inject_Z ky).
Proof.
  intros N R F. apply (@same_pixel_cluster B); [exact N | exact R |].
  eapply Forall_impl; [|exact F].
  intros q [Hx Hy]. unfold round_coord, np_round.
  now rewrite (nearest_even_round Hx), (nearest_even_round Hy).
Qed.

Lemma cluster_collapses_to_pixel_witness :
  get_intersection_point
    (MultiPoint [(24 # 5, 11 # 10); (26 # 5, 9 # 10); (5, 1)])
  = inr (inject_Z 5, inject_Z 1).
Proof.
  apply (@cluster_collapses_to_pixel 6); [discriminate| |].
  - split; [repeat constructor; vm_compute; discriminate | vm_compute; reflexivity].
  - repeat constructor; vm_compute; (discriminate || (intros H; discriminate H)).
Defined.

(** ** The canvas: what a drag leaves on the current object *)

Lemma update_length {A} (l : list A) (i : nat) (f : A -> A) :
  length (update l i f) = length l.
Proof.
  revert i. induction l as [|a l IH]; intros [|i]; cbn; auto.
Qed.

Lemma update_parent_links (l : list Object) (i j : nat) (x y : option (list Q)) :
  option_map obj_parent
    (nth_error (update l i (fun o => {| obj_x := x; obj_y := y;
                                        obj_parent := obj_parent o |})) j)
  = option_map obj_parent (nth_error l j).
Proof.
  destruct (Nat.eq_dec i j) as [->|N].
  - rewrite update_same. now destruct (nth_error l j).
  - now rewrite update_other.
Qed.

Lemma slot_shape (c : Canvas) (sg : signal) :
  length (objects (slot c sg)) = length (objects c) /\
  forall j, option_map obj_parent (nth_error (objects (slot c sg)) j)
            = option_map obj_parent (nth_error (objects c) j).
Proof.
  destruct sg; cbn; split; try apply update_length; intros j;
    apply update_parent_links.
Qed.

Lemma slots_shape (sigs : list signal) (c : Canvas) :
  length (objects (fold_left slot sigs c)) = length (objects c) /\
  forall j, option_map obj_parent (nth_error (objects (fold_left slot sigs c)) j)
            = option_map obj_parent (nth_error (objects c) j).
Proof.
  revert c. induction sigs as [|sg sigs IH]; intros c; cbn; [auto|].
  destruct (IH (slot c sg)) as [L P]. destruct (slot_shape c sg) as [L' P'].
  split; [congruence|]. intros j. now rewrite P, P'.
Qed.

Lemma onselect_shape (c : Canvas) (verts : list coord) :
  length (objects (fst (fst (onselect c verts)))) = length (objects c) /\
  forall j, option_map obj_parent
              (nth_error (objects (fst (fst (onselect c verts)))) j)
            = option_map obj_parent (nth_error (objects c) j).
Proof.
  unfold onselect.
  destruct (nth_error (objects c) (currentObject c)) as [cur|]; [|auto].
  assert (S : length (objects (draw_object
                (set_xy c (Some (xs verts)) (Some (ys verts)))
                (xs verts) (ys verts))) = length (objects c) /\
              forall j, option_map obj_parent (nth_error (objects (draw_object
                (set_xy c (Some (xs verts)) (Some (ys verts)))
                (xs verts) (ys verts))) j)
              = option_map obj_parent (nth_error (objects c) j)).
  { cbn. split; [now rewrite !update_length|].
    intros j. now rewrite !update_parent_links. }
  destruct (obj_parent cur) as [p|]; [|exact S].
  destruct (nth_error (objects c) p) as [par|]; [|auto].
  destruct (mainobject_of (obj_x par) (obj_y par)) as [[]|m]; cbn [fst]; auto.
Qed.

(** X9: a drag never adds or removes an object, never changes which object
    is current, and never changes any object's parent link. *)
Theorem round_keeps_object_table (K : Kernel) (c : Canvas) (verts : list coord) :
  length (objects (gesture_round K c verts)) = length (objects c) /\
  currentObject (gesture_round K c verts) = currentObject c /\
  forall j, option_map obj_parent (nth_error (objects (gesture_round K c verts)) j)
            = option_map obj_parent (nth_error (objects c) j).
Proof.
  unfold gesture_round.
  destruct (onselect_shape c verts) as [L P].
  destruct (onselect_frame c verts) as [C _].
  destruct (onselect c verts) as [[stored reqs] own]. cbn [fst] in *.
  destruct (slots_shape (replies K c verts) stored) as [L' P'].
  rewrite slots_current. split; [congruence|]. split; [congruence|].
  intros j. now rewrite P', P.
Qed.

Lemma stored_after_onselect (c : Canvas) (verts : list coord) (cur : Object) :
  nth_error (objects c) (currentObject c) = Some cur ->
  nth_error (objects (draw_object (set_xy c (Some (xs verts)) (Some (ys verts)))
                                  (xs verts) (ys verts))) (currentObject c)
  = Some (traced cur verts).
Proof. intros H. cbn. now rewrite !update_same, H. Qed.

Lemma round_stores_curve (K : Kernel) (c : Canvas) (verts : list coord)
      (cur : Object) (x y : list Q) :
  nth_error (objects c) (currentObject c) = Some cur ->
  replies K c verts = [new_coords x y] ->
  nth_error (objects (gesture_round K c verts)) (currentObject c)
  = Some {| obj_x := Some x; obj_y := Some y; obj_parent := obj_parent cur |}.
Proof.
  intros Hcur R. unfold gesture_round. rewrite R.
  pose proof (@stored_after_onselect c verts cur Hcur) as S.
  cbn [draw_object set_xy objects currentObject] in S.
  assert (F : forall stored,
             stored = draw_object (set_xy c (Some (xs verts)) (Some (ys verts)))
                                  (xs verts) (ys verts) ->
             nth_error (objects (fold_left slot [new_coords x y] stored))
                       (currentObject c)
             = Some {| obj_x := Some x; obj_y := Some y;
                       obj_parent := obj_parent cur |}).
  { intros stored ->.
    cbn [fold_left slot draw_object set_xy objects currentObject].
    rewrite update_same, S. reflexivity. }
  revert R. unfold replies, onselect. rewrite Hcur.
  destruct (obj_parent cur) as [p|] eqn:Pc.
  - destruct (nth_error (objects c) p) as [par|]; [|discriminate].
    destruct (mainobject_of (obj_x par) (obj_y par)) as [[]|m];
      try discriminate; intros _; now apply F.
  - intros _. now apply F.
Qed.

(** X10: when the engine answers a drag with one curve, that curve - and
    not the raw gesture - is what the current object stores afterwards. *)
Theorem accepted_curve_is_stored (K : Kernel) (c : Canvas) (verts : list coord)
        (cur : Object) (x y : list Q) :
  nth_error (objects c) (currentObject c) = Some cur ->
  replies K c verts = [new_coords x y] ->
  nth_error (objects (gesture_round K c verts)) (currentObject c)
  = Some {| obj_x := Some x; obj_y := Some y; obj_parent := obj_parent cur |}.
Proof. apply round_stores_curve. Qed.

Lemma accepted_curve_is_stored_witness :
  nth_error (objects (gesture_round Ref.kernel session crossing_line)) 1
  = Some {| obj_x := Some (xs [pt 2 (-1); pt 2 11; pt 3 10; pt 10 10; pt 10 0; pt 3 0]);
            obj_y := Some (ys [pt 2 (-1); pt 2 11; pt 3 10; pt 10 10; pt 10 0; pt 3 0]);
            obj_parent := Some 0%nat |}.
Proof.
  apply (@accepted_curve_is_stored Ref.kernel session crossing_line child_object);
    [reflexivity | vm_compute; reflexivity].
Defined.

Lemma zip_xy_combine (x y : list Q) :
  length x = length y -> zip_xy x y = inr (combine x y).
Proof.
  revert y. induction x as [|a x IH]; intros [|b y] L; cbn in *; try discriminate;
    [reflexivity|]. rewrite IH by congruence. reflexivity.
Qed.

Lemma zip_xy_round_trip (cs : list coord) : zip_xy (xs cs) (ys cs) = inr cs.
Proof.
  induction cs as [|[a b] cs IH]; cbn; [reflexivity|].
  unfold xs, ys in IH. now rewrite IH.
Qed.

Lemma mainobject_round_trip (cs : list coord) :
  mainobject_of (Some (xs cs)) (Some (ys cs)) = inr cs.
Proof.
  destruct cs as [|c cs]; [reflexivity|].
  change (mainobject_of (Some (xs (c :: cs))) (Some (ys (c :: cs))))
    with (zip_xy (xs (c :: cs)) (ys (c :: cs))).
  apply zip_xy_round_trip.
Qed.

(** X11: a drag of fewer than four points is answered by no signal at all,
    so the raw gesture stays on the current object as its outline - for an
    object without a parent and for one whose parent has coordinates. *)
Theorem short_gesture_is_stored_raw (K : Kernel) (c : Canvas)
        (verts : list coord) (cur : Object) :
  nth_error (objects c) (currentObject c) = Some cur ->
  (length verts < 4)%nat ->
  (obj_parent cur = None \/
   exists p par ring,
     obj_parent cur = Some p /\ nth_error (objects c) p = Some par /\
     mainobject_of (obj_x par) (obj_y par) = inr ring) ->
  replies K c verts = [] /\
  nth_error (objects (gesture_round K c verts)) (currentObject c)
  = Some (traced cur verts).
Proof.
  intros Hcur S HP.
  pose proof (@stored_after_onselect c verts cur Hcur) as St.
  assert (R : replies K c verts = []).
  { unfold replies, onselect. rewrite Hcur.
    destruct HP as [->|(p & par & ring & -> & -> & ->)]; cbn [flat_map serve app];
      rewrite app_nil_r, emitted_run.
    - unfold get_lasso_area. apply Nat.ltb_lt in S. now rewrite S.
    - unfold get_multi_area. apply Nat.ltb_lt in S. now rewrite S. }
  split; [exact R|].
  unfold gesture_round. rewrite R. unfold onselect. rewrite Hcur.
  destruct HP as [->|(p & par & ring & -> & -> & ->)]; exact St.
Qed.

Lemma short_gesture_is_stored_raw_witness :
  replies Ref.kernel session [pt 1 1; pt 2 1; pt 2 2] = [] /\
  nth_error (objects (gesture_round Ref.kernel session [pt 1 1; pt 2 1; pt 2 2])) 1
  = Some (traced child_object [pt 1 1; pt 2 1; pt 2 2]).
Proof.
  apply short_gesture_is_stored_raw; [reflexivity | cbn; lia |].
  right. exists 0%nat, parent_object, notched_square.
  split; [reflexivity|]. split; [reflexivity|]. apply mainobject_round_trip.
Defined.



Lemma lasso_curve_coords (K : Kernel) (lasso : list coord) (x y : list Q) :
  emitted (run (get_lasso_area K lasso)) = [new_coords x y] ->
  exists ring, x = xs ring /\ y = ys ring.
Proof.
  intros H.
  destruct (Nat.lt_ge_cases (length lasso) 4) as [S|L].
  { rewrite (short_lasso_emits_nothing K lasso S) in H. discriminate. }
  pose proof (@get_lasso_area_after_crosspoint K lasso L) as A.
  destruct (lasso_crosspoint lasso
              (intersection K (fst (array_split lasso)) (snd (array_split lasso))))
    as [s r] eqn:E.
  specialize (A s r eq_refl). destruct r as [e|p].
  - exists (LinearRing_coords lasso).
    apply (@lasso_crosspoint_curve lasso
             (intersection K (fst (array_split lasso)) (snd (array_split lasso)))).
    rewrite E. cbn [fst]. rewrite <- A, H. now left.
  - destruct A as [_ [A|(c & a & b & A)]]; rewrite A in H; [discriminate|].
    inversion H. exists (((c :: a) ++ b) ++ [c]).
    unfold xs, ys. now rewrite !map_app.
Qed.

(** X13: once the loop slot has closed a gesture on a parentless object,
    a later drag on a child of that object hands the split slot exactly
    the ring that was emitted: the parent coordinates survive the trip
    through [draw_object] and back through [onselect] unchanged. *)
Theorem closer_feeds_splitter (K : Kernel) (c : Canvas) (verts verts' : list coord)
        (cur child : Object) (j : nat) (x y : list Q) :
  nth_error (objects c) (currentObject c) = Some cur ->
  obj_parent cur = None ->
  emitted (run (get_lasso_area K verts)) = [new_coords x y] ->
  j <> currentObject c ->
  nth_error (objects c) j = Some child ->
  obj_parent child = Some (currentObject c) ->
  exists ring,
    x = map fst ring /\ y = map snd ring /\
    replies K (set_object (gesture_round K c verts) j) verts'
    = emitted (run (get_multi_area K (ring, verts'))).
Proof.
  intros Hcur Hp HE Nj Hj Hc.
  destruct (@lasso_curve_coords K verts x y HE) as (ring & -> & ->).
  exists ring. split; [reflexivity|]. split; [reflexivity|].
  assert (R : replies K c verts = [new_coords (xs ring) (ys ring)]).
  { unfold replies, onselect. rewrite Hcur, Hp. cbn [flat_map serve app].
    now rewrite app_nil_r. }
  pose proof (@round_stores_curve K c verts cur _ _ Hcur R) as T.
  pose proof (@round_other K c verts j Nj) as O. rewrite Hj in O.
  unfold replies, onselect, set_object. cbn [objects currentObject].
  rewrite O, Hc, T. cbn [obj_x obj_y]. rewrite mainobject_round_trip.
  cbn [flat_map serve app]. now rewrite app_nil_r.
Qed.

Lemma closer_feeds_splitter_witness :
  exists ring,
    xs square_ring = xs ring /\ ys square_ring = ys ring /\
    replies Ref.kernel (set_object (gesture_round Ref.kernel fresh_session square) 1)
            crossing_line
    = emitted (run (get_multi_area Ref.kernel (ring, crossing_line))).
Proof.
  apply (@closer_feeds_splitter Ref.kernel fresh_session square crossing_line
           undrawn_object child_object 1%nat (xs square_ring) (ys square_ring)
           eq_refl eq_refl);
    [vm_compute; reflexivity | cbn; lia | reflexivity | reflexivity].
Defined.

(** ** The zoom window of a detected region *)

Lemma pad_axis_bounds (shape lo hi : Z) :
  (0 <= fst (pad_axis shape lo hi) /\ snd (pad_axis shape lo hi) <= shape)%Z.
Proof.
  unfold pad_axis, zoom_buffer.
  destruct (lo - 50 >=? 0)%Z eqn:A;
    [destruct (hi + 50 <=? shape)%Z eqn:B
    |destruct (hi + (50 - lo) + 50 <=? shape)%Z eqn:B]; cbn [fst snd]; lia.
Qed.

Lemma pad_axis_cases (shape lo hi : Z) :
  (0 <= lo)%Z ->
  (fst (pad_axis shape lo hi) = Z.max 0 (lo - zoom_buffer))%Z /\
  ((snd (pad_axis shape lo hi) - fst (pad_axis shape lo hi)
    = hi - lo + 2 * zoom_buffer)%Z \/
   (snd (pad_axis shape lo hi) = shape /\
    shape - fst (pad_axis shape lo hi) < hi - lo + 2 * zoom_buffer)%Z).
Proof.
  intros L. unfold pad_axis, zoom_buffer.
  destruct (lo - 50 >=? 0)%Z eqn:A;
    [destruct (hi + 50 <=? shape)%Z eqn:B
    |destruct (hi + (50 - lo) + 50 <=? shape)%Z eqn:B]; cbn [fst snd]; lia.
Qed.

(** X14: the zoom window of a region always lies inside the image,
    whatever the bounding box: 0 <= xmin, xmax <= width, 0 <= ymin,
    ymax <= height. *)
Theorem region_zoom_inside_image (shape0 shape1 : Z) (bbox : Z * Z * Z * Z) :
  exists xmin xmax ymin ymax,
    region_zoom shape0 shape1 bbox = [xmin; xmax; ymin; ymax] /\
    (0 <= xmin /\ xmax <= shape1 /\ 0 <= ymin /\ ymax <= shape0)%Z.
Proof.
  destruct bbox as [[[b0 b1] b2] b3]. unfold region_zoom, pad_bbox, set_zoom.
  pose proof (pad_axis_bounds shape0 b0 b2) as R.
  pose proof (pad_axis_bounds shape1 b1 b3) as C.
  destruct (pad_axis shape0 b0 b2) as [r0 r1], (pad_axis shape1 b1 b3) as [c0 c1].
  cbn [fst snd] in *. exists c0, c1, r0, r1. split; [reflexivity | lia].
Qed.

(** X15: for a bounding box that lies inside the image, the zoom window
    contains the box; on each axis it is the box widened by twice the zoom
    buffer, unless it reaches the far border of the image, in which case it
    ends there and is narrower: the near side is never moved further out to
    make up for it (the correction of lines 874-875 and 887-888 is zero). *)
Theorem region_zoom_contains_region (shape0 shape1 b0 b1 b2 b3 : Z) :
  (0 <= b0 <= b2)%Z -> (b2 <= shape0)%Z ->
  (0 <= b1 <= b3)%Z -> (b3 <= shape1)%Z ->
  exists xmin xmax ymin ymax,
    region_zoom shape0 shape1 (b0, b1, b2, b3) = [xmin; xmax; ymin; ymax] /\
    (xmin <= b1 /\ b3 <= xmax /\ ymin <= b0 /\ b2 <= ymax)%Z /\
    (xmin = Z.max 0 (b1 - zoom_buffer) /\ ymin = Z.max 0 (b0 - zoom_buffer))%Z /\
    ((xmax - xmin = b3 - b1 + 2 * zoom_buffer)%Z \/
     (xmax = shape1 /\ shape1 - xmin < b3 - b1 + 2 * zoom_buffer)%Z) /\
    ((ymax - ymin = b2 - b0 + 2 * zoom_buffer)%Z \/
     (ymax = shape0 /\ shape0 - ymin < b2 - b0 + 2 * zoom_buffer)%Z).
Proof.
  intros R0 R1 C0 C1. unfold region_zoom, pad_bbox, set_zoom.
  pose proof (pad_axis_bounds shape0 b0 b2) as RB.
  pose proof (pad_axis_bounds shape1 b1 b3) as CB.
  destruct (@pad_axis_cases shape0 b0 b2 ltac:(lia)) as [Rl Rh].
  destruct (@pad_axis_cases shape1 b1 b3 ltac:(lia)) as [Cl Ch].
  destruct (pad_axis shape0 b0 b2) as [r0 r1], (pad_axis shape1 b1 b3) as [c0 c1].
  cbn [fst snd] in *. exists c0, c1, r0, r1. unfold zoom_buffer in *.
  split; [reflexivity|]. split; [lia|]. split; [lia|]. split; assumption.
Qed.

Lemma region_zoom_contains_region_witness :
  exists xmin xmax ymin ymax,
    region_zoom 400 600 (10, 570, 60, 590)%Z = [xmin; xmax; ymin; ymax] /\
    (xmin <= 570 /\ 590 <= xmax /\ ymin <= 10 /\ 60 <= ymax)%Z /\
    (xmin = Z.max 0 (570 - zoom_buffer) /\ ymin = Z.max 0 (10 - zoom_buffer))%Z /\
    ((xmax - xmin = 590 - 570 + 2 * zoom_buffer)%Z \/
     (xmax = 600 /\ 600 - xmin < 590 - 570 + 2 * zoom_buffer)%Z) /\
    ((ymax - ymin = 60 - 10 + 2 * zoom_buffer)%Z \/
     (ymax = 400 /\ 400 - ymin < 60 - 10 + 2 * zoom_buffer)%Z).
Proof. apply region_zoom_contains_region; lia. Defined.

(** ** [TreeItem]: rows and cells *)

Lemma iter_list_insert {A} (n position : nat) (item : A) (l : list A) :
  (position <= length l)%nat ->
  Nat.iter n (list_insert position item) l
  = firstn position l ++ repeat item n ++ skipn position l.
Proof.
  intros L. induction n as [|n IH].
  - cbn. symmetry. apply firstn_skipn.
  - rewrite Nat.iter_succ, IH. cbn [repeat]. unfold list_insert.
    rewrite firstn_app, firstn_firstn, Nat.min_id, length_firstn, Nat.min_l by lia.
    rewrite Nat.sub_diag. cbn [firstn]. rewrite app_nil_r.
    rewrite skipn_app, length_firstn, Nat.min_l, Nat.sub_diag by lia.
    cbn [skipn]. rewrite skipn_firstn_comm, Nat.sub_diag. cbn [firstn app].
    reflexivity.
Qed.

(** X16: [insertChildren] succeeds exactly for a position from 0 to the
    number of rows; a refused call changes nothing; an accepted one puts
    [count] blank rows of [columns] empty cells, without children of their
    own, at [position] and keeps the rows before and after in order. *)
Theorem insertChildren_contract (t : TreeItem) (position count columns : Z) :
  (fst (insertChildren t position count columns) = true <->
   (0 <= position <= Z.of_nat (length (childItems t)))%Z) /\
  (fst (insertChildren t position count columns) = false ->
   snd (insertChildren t position count columns) = t) /\
  (fst (insertChildren t position count columns) = true ->
   itemData (snd (insertChildren t position count columns)) = itemData t /\
   childItems (snd (insertChildren t position count columns))
   = firstn (Z.to_nat position) (childItems t)
     ++ repeat (Node (ListData (repeat None (Z.to_nat columns))) []) (Z.to_nat count)
     ++ skipn (Z.to_nat position) (childItems t)).
Proof.
  unfold insertChildren, childCount.
  destruct ((position <? 0) || (Z.of_nat (length (childItems t)) <? position))%Z eqn:G;
    cbn [fst snd].
  - apply orb_true_iff in G. rewrite !Z.ltb_lt in G.
    split; [split; [discriminate | lia]|]. split; [reflexivity | discriminate].
  - apply orb_false_iff in G. rewrite !Z.ltb_ge in G.
    split; [split; [lia | reflexivity]|]. split; [discriminate|].
    intros _. cbn [itemData childItems]. split; [reflexivity|].
    apply iter_list_insert. lia.
Qed.

Lemma pop_rows_ok {A} (count position : nat) (l : list A) :
  (position + count <= length l)%nat ->
  pop_rows count position l = inr (firstn position l ++ skipn (position + count) l).
Proof.
  revert l. induction count as [|count IH]; intros l L; cbn [pop_rows].
  - now rewrite Nat.add_0_r, firstn_skipn.
  - unfold list_pop.
    replace (position <? length l)%nat with true by (symmetry; apply Nat.ltb_lt; lia).
    assert (Lf : length (firstn position l) = position)
      by (rewrite length_firstn; lia).
    rewrite IH by (rewrite length_app, Lf, length_skipn; lia).
    rewrite firstn_app, Lf, Nat.sub_diag, (firstn_all2 (firstn position l)) by lia.
    cbn [firstn]. rewrite app_nil_r.
    rewrite skipn_app, Lf, (skipn_all2 (firstn position l)) by lia.
    rewrite skipn_skipn. cbn [app]. do 3 f_equal. lia.
Qed.

(** X17: [removeChildren] never raises: whenever its guard lets the call
    through, every [pop] it makes is in range.  It succeeds exactly when
    [0 <= position] and [position + count] does not exceed the number of
    rows, and then removes the [count] rows from [position] on (none when
    [count] is negative); a refused call changes nothing. *)
Theorem removeChildren_contract (t : TreeItem) (position count : Z) :
  exists ok t',
    removeChildren t position count = inr (ok, t') /\
    (ok = true <->
     (0 <= position /\ position + count <= Z.of_nat (length (childItems t)))%Z) /\
    (ok = false -> t' = t) /\
    (ok = true ->
     itemData t' = itemData t /\
     childItems t'
     = firstn (Z.to_nat position) (childItems t)
       ++ skipn (Z.to_nat position + Z.to_nat count) (childItems t)).
Proof.
  unfold removeChildren, childCount.
  destruct ((position <? 0)
            || (Z.of_nat (length (childItems t)) <? position + count))%Z eqn:G.
  - apply orb_true_iff in G. rewrite !Z.ltb_lt in G.
    exists false, t. split; [reflexivity|].
    split; [split; [discriminate | lia]|]. split; [reflexivity | discriminate].
  - apply orb_false_iff in G. rewrite !Z.ltb_ge in G.
    assert (E : pop_rows (Z.to_nat count) (Z.to_nat position) (childItems t)
                = inr (firstn (Z.to_nat position) (childItems t)
                       ++ skipn (Z.to_nat position + Z.to_nat count) (childItems t))).
    { destruct (Z.le_gt_cases count 0) as [N|P].
      - replace (Z.to_nat count) with 0%nat by lia. cbn [pop_rows].
        now rewrite Nat.add_0_r, firstn_skipn.
      - apply pop_rows_ok. lia. }
    rewrite E. eexists true, _. split; [reflexivity|].
    split; [split; [lia | reflexivity]|]. split; [discriminate|].
    intros _. cbn [itemData childItems]. split; reflexivity.
Qed.

(** X18: removing [count] rows at the position where [count] blank rows
    have just been inserted gives the item back. *)
Theorem insert_then_remove (t : TreeItem) (position count columns : Z) :
  (0 <= position <= Z.of_nat (length (childItems t)))%Z ->
  removeChildren (snd (insertChildren t position count columns)) position count
  = inr (true, t).
Proof.
  intros P. unfold insertChildren, removeChildren, childCount in *.
  replace ((position <? 0) || (Z.of_nat (length (childItems t)) <? position))%Z
    with false by (symmetry; apply orb_false_iff; rewrite !Z.ltb_ge; lia).
  cbn [snd childItems itemData].
  rewrite iter_list_insert by lia.
  set (l := childItems t) in *.
  set (p := Z.to_nat position). set (n := Z.to_nat count).
  assert (Lf : length (firstn p l) = p) by (rewrite length_firstn; lia).
  assert (Ll : length (firstn p l ++ repeat (blank_row columns) n ++ skipn p l)
               = (length l + n)%nat).
  { rewrite !length_app, repeat_length, length_skipn, Lf. lia. }
  rewrite Ll.
  replace ((position <? 0) || (Z.of_nat (length l + n) <? position + count))%Z
    with false by (symmetry; apply orb_false_iff; rewrite !Z.ltb_ge; lia).
  rewrite pop_rows_ok by (rewrite Ll; lia).
  rewrite firstn_app, Lf, Nat.sub_diag, firstn_all2 by lia.
  cbn [firstn]. rewrite app_nil_r.
  rewrite skipn_app, Lf, (skipn_all2 (firstn p l)) by lia.
  replace (p + n - p)%nat with n by lia.
  rewrite skipn_app, repeat_length, Nat.sub_diag, skipn_all2 by (rewrite repeat_length; lia).
  cbn [skipn app]. rewrite firstn_skipn. destruct t. reflexivity.
Qed.

Lemma insert_then_remove_witness :
  removeChildren (snd (insertChildren new_rootItem 0 3 1)) 0 3 = inr (true, new_rootItem).
Proof. apply insert_then_remove. cbn. lia. Defined.

Lemma py_position_in_range {A} (l : list A) (i : Z) :
  (0 <= i < Z.of_nat (length l))%Z -> py_position l i = Some (Z.to_nat i).
Proof.
  intros R. unfold py_position.
  replace ((0 <=? i) && (i <? Z.of_nat (length l)))%Z with true; [reflexivity|].
  symmetry. apply andb_true_iff. rewrite Z.leb_le, Z.ltb_lt. lia.
Qed.

Lemma nth_error_update {A} (l : list A) (i j : nat) (v : A) :
  nth_error (update l i (fun _ => v)) j
  = if (i =? j)%nat then option_map (fun _ => v) (nth_error l j) else nth_error l j.
Proof.
  destruct (Nat.eqb_spec i j) as [->|N]; [apply update_same | now apply update_other].
Qed.

(** X19: [setData] refuses a column outside [0 .. columnCount - 1] and
    changes nothing; on the tuple data of a root it raises [TypeError] for a
    column in range; on a row it stores the value, which [data] then reads
    back, and leaves the other cells and the children as they were. *)
Theorem setData_contract (t : TreeItem) (column : Z) (value : cell) :
  (~ (0 <= column < columnCount t)%Z -> setData t column value = inr (false, t)) /\
  ((0 <= column < columnCount t)%Z ->
   match itemData t with
   | TupleData _ => setData t column value = inl TypeError
   | ListData _ =>
       exists t',
         setData t column value = inr (true, t') /\
         data t' column = inr value /\
         childItems t' = childItems t /\
         columnCount t' = columnCount t /\
         forall other, (0 <= other < columnCount t)%Z -> other <> column ->
                       data t' other = data t other
   end).
Proof.
  unfold setData, columnCount, data. split.
  - intros N.
    replace ((column <? 0) || (Z.of_nat (length (cells_of (itemData t))) <=? column))%Z
      with true; [reflexivity|].
    symmetry. apply orb_true_iff. rewrite Z.ltb_lt, Z.leb_le. lia.
  - intros R.
    replace ((column <? 0) || (Z.of_nat (length (cells_of (itemData t))) <=? column))%Z
      with false by (symmetry; apply orb_false_iff; rewrite Z.ltb_ge, Z.leb_gt; lia).
    destruct t as [[cells|cells] children]; cbn [itemData cells_of] in *; [reflexivity|].
    eexists. split; [reflexivity|]. cbn [itemData cells_of childItems].
    assert (L : length (update cells (Z.to_nat column) (fun _ => value)) = length cells)
      by apply update_length.
    split; [|split; [reflexivity|split; [now rewrite L|]]].
    + unfold py_item. rewrite py_position_in_range by (rewrite L; lia).
      rewrite update_same.
      destruct (nth_error cells (Z.to_nat column)) eqn:E; [reflexivity|].
      apply nth_error_None in E. lia.
    + intros other Ro No. unfold py_item.
      rewrite !py_position_in_range by (rewrite ?L; lia).
      rewrite update_other by lia. reflexivity.
Qed.

Lemma class_rows_succ (n : nat) : class_rows (S n) = class_rows n ++ [class_row (S n)].
Proof. unfold class_rows. now rewrite seq_S, map_app. Qed.

Lemma class_rows_length (n : nat) : length (class_rows n) = n.
Proof. unfold class_rows. now rewrite length_map, length_seq. Qed.

Lemma update_last {A} (l : list A) (a b : A) :
  update (l ++ [a]) (length l) (fun _ => b) = l ++ [b].
Proof. induction l as [|c l IH]; cbn; [reflexivity | now rewrite IH]. Qed.

Lemma append_row_class_root (n : nat) (name : TreeItem -> String.string) :
  append_row (class_root n) name
  = inr (Node (TupleData [Some String.EmptyString])
              (class_rows n
               ++ [Node (ListData [Some (name (Node (TupleData [Some String.EmptyString])
                                                    (class_rows n ++ [blank_row 1])))]) []])).
Proof.
  unfold append_row, insertChildren, childCount, columnCount, class_root.
  cbn [childItems itemData cells_of length].
  rewrite class_rows_length.
  replace ((Z.of_nat n <? 0) || (Z.of_nat n <? Z.of_nat n))%Z with false
    by (symmetry; apply orb_false_iff; rewrite !Z.ltb_ge; lia).
  rewrite Nat2Z.id. change (Z.to_nat 1) with 1%nat. cbn [Nat.iter nat_rect].
  unfold list_insert.
  rewrite firstn_all2, skipn_all2 by (rewrite class_rows_length; lia).
  unfold child_setData. cbn [childItems itemData].
  rewrite py_position_in_range
    by (rewrite length_app, class_rows_length; cbn [length]; lia).
  rewrite length_app, class_rows_length. cbn [length].
  replace (Z.to_nat (Z.of_nat (n + 1) - 1)) with n by lia.
  rewrite nth_error_app2, class_rows_length, Nat.sub_diag by (rewrite class_rows_length; lia).
  cbn [nth_error]. change (Z.of_nat 1) with 1%Z.
  match goal with |- context [setData _ _ ?v] => set (value := v) end.
  change (setData (blank_row 1) 0 value)
    with (inr (true, Node (ListData [value]) []) : exn + bool * TreeItem).
  cbv beta iota. rewrite <- (class_rows_length n) at 2. now rewrite update_last.
Qed.

(** ** The class list *)

Lemma ItemModel_add_class_rows (n : nat) :
  ItemModel_add_class (class_root n) = inr (class_root (S n)).
Proof.
  unfold ItemModel_add_class. rewrite append_row_class_root.
  unfold class_root, childCount. cbn [childItems].
  rewrite length_app, class_rows_length, class_rows_succ. cbn [length].
  unfold class_row. now replace (n + 1)%nat with (S n) by lia.
Qed.


Lemma ItemModel_remove_class_rows (n : nat) :
  ItemModel_remove_class (class_root (S n)) = inr (class_root n).
Proof.
  unfold ItemModel_remove_class, child, py_item, py_position, class_root.
  cbn [childItems]. rewrite class_rows_length.
  replace ((0 <=? -1) && (-1 <? Z.of_nat (S n)))%Z with false by reflexivity.
  replace ((- Z.of_nat (S n) <=? -1) && (-1 <? 0))%Z with true
    by (symmetry; apply andb_true_iff; rewrite Z.leb_le, Z.ltb_lt; lia).
  replace (Z.to_nat (Z.of_nat (S n) + -1)) with n by lia.
  rewrite class_rows_succ, nth_error_app2, class_rows_length, Nat.sub_diag
    by (rewrite class_rows_length; lia).
  cbn [nth_error]. rewrite <- class_rows_succ.
  unfold removeChildren, childCount. cbn [childItems itemData].
  rewrite class_rows_length.
  replace ((Z.of_nat (S n) - 1 <? 0) || (Z.of_nat (S n) <? Z.of_nat (S n) - 1 + 1))%Z
    with false by (symmetry; apply orb_false_iff; rewrite !Z.ltb_ge; lia).
  replace (Z.to_nat (Z.of_nat (S n) - 1)) with n by lia.
  change (Z.to_nat 1) with 1%nat.
  rewrite pop_rows_ok by (rewrite class_rows_length; lia).
  rewrite class_rows_succ.
  rewrite firstn_app, class_rows_length, Nat.sub_diag, firstn_all2
    by (rewrite class_rows_length; lia).
  rewrite skipn_all2 by (rewrite length_app, class_rows_length; cbn; lia).
  cbn [firstn]. now rewrite !app_nil_r.
Qed.


Lemma with_listmodel_agree (g : Gui) (n : nat) :
  max_class g = Z.of_nat n -> classes_agree (with_listmodel g (class_root n)) n.
Proof.
  intros M. unfold classes_agree, with_listmodel, childCount, class_root.
  cbn. now rewrite class_rows_length.
Qed.

(** X21: when the class list and the class counter agree on [n >= 1]
    classes, a user's [add_class] and [remove_class] keep them in agreement
    and never leave fewer than one class: [add_class] gives [n + 1] classes
    when an image is open, [remove_class] gives [n - 1] when an image is
    open and [n > 1], and both do nothing otherwise. *)
Theorem user_class_edits_agree (g : Gui) (n : nat) :
  classes_agree g n -> (1 <= n)%nat ->
  (exists g', add_class g false = inr g' /\
              classes_agree g' (if has_image g then S n else n)) /\
  (exists g', remove_class g false = inr g' /\
              classes_agree g' (if has_image g && negb (n =? 1)%nat
                                then Nat.pred n else n)).
Proof.
  intros (HL & HM & HC) N. split.
  - unfold add_class. destruct (has_image g) eqn:I; cbn [negb andb].
    + cbn [with_max_class listmodel]. rewrite HL, ItemModel_add_class_rows.
      eexists. split; [reflexivity|]. apply with_listmodel_agree. cbn. lia.
    + exists g. split; [reflexivity|]. repeat split; assumption.
  - unfold remove_class. rewrite HL. unfold childCount at 1, class_root at 1.
    cbn [childItems]. rewrite class_rows_length.
    destruct (has_image g) eqn:I; cbn [negb andb orb].
    + destruct n as [|[|n]]; [lia| |].
      * cbn. exists g. split; [reflexivity|]. repeat split; assumption.
      * replace (Z.of_nat (S (S n)) =? 1)%Z with false
          by (symmetry; apply Z.eqb_neq; lia).
        cbn [orb andb negb with_max_class listmodel Nat.eqb Nat.pred].
        rewrite HL, ItemModel_remove_class_rows.
        eexists. split; [reflexivity|]. apply with_listmodel_agree. cbn. lia.
    + rewrite orb_true_r. cbn [andb]. exists g. split; [reflexivity|].
      repeat split; assumption.
Qed.

Lemma user_class_edits_agree_witness :
  (exists g', add_class {| has_image := true; max_class := 2;
                           listmodel := class_root 2; colormap_n := 2 |} false
              = inr g' /\ classes_agree g' 3) /\
  (exists g', remove_class {| has_image := true; max_class := 2;
                              listmodel := class_root 2; colormap_n := 2 |} false
              = inr g' /\ classes_agree g' 1).
Proof.
  apply (@user_class_edits_agree
           {| has_image := true; max_class := 2; listmodel := class_root 2;
              colormap_n := 2 |} 2).
  - repeat split.
  - lia.
Defined.

Lemma internal_removals (k j : nat) (g : Gui) :
  listmodel g = class_root (j + k) ->
  exists g',
    repeat_gui k (fun g => remove_class g true) g = inr g' /\
    listmodel g' = class_root j /\
    max_class g' = (max_class g - Z.of_nat k)%Z /\
    (k <> 0%nat -> colormap_n g' = Z.of_nat j).
Proof.
  revert g. induction k as [|k IH]; intros g HL; cbn [repeat_gui].
  - exists g. rewrite Nat.add_0_r in HL. repeat split; [assumption | lia | contradiction].
  - unfold remove_class. rewrite andb_false_r. cbn [with_max_class listmodel].
    rewrite HL. replace (j + S k)%nat with (S (j + k)) by lia.
    rewrite ItemModel_remove_class_rows.
    destruct (IH (with_listmodel (with_max_class g (max_class g - 1))
                                 (class_root (j + k))) eq_refl)
      as (g' & E & L & M & C).
    exists g'. split; [exact E|]. split; [exact L|]. split.
    + rewrite M. cbn [with_listmodel with_max_class max_class]. lia.
    + intros _. destruct k as [|k].
      * cbn [repeat_gui] in E. inversion E. subst g'.
        cbn [with_listmodel colormap_n]. unfold childCount, class_root.
        cbn [childItems]. rewrite class_rows_length. f_equal. lia.
      * apply C. discriminate.
Qed.

Lemma internal_additions (k j : nat) (g : Gui) :
  listmodel g = class_root j ->
  exists g',
    repeat_gui k (fun g => add_class g true) g = inr g' /\
    listmodel g' = class_root (j + k) /\
    max_class g' = (max_class g + Z.of_nat k)%Z /\
    (k <> 0%nat -> colormap_n g' = Z.of_nat (j + k)).
Proof.
  revert j g. induction k as [|k IH]; intros j g HL; cbn [repeat_gui].
  - exists g. rewrite Nat.add_0_r. repeat split; [assumption | lia | contradiction].
  - unfold add_class. rewrite andb_false_r. cbn [with_max_class listmodel].
    rewrite HL, ItemModel_add_class_rows.
    destruct (IH (S j) (with_listmodel (with_max_class g (max_class g + 1))
                                       (class_root (S j))) eq_refl)
      as (g' & E & L & M & C).
    exists g'. split; [exact E|].
    replace (j + S k)%nat with (S j + k)%nat by lia.
    split; [exact L|]. split.
    + rewrite M. cbn [with_listmodel with_max_class max_class]. lia.
    + intros _. destruct k as [|k].
      * cbn [repeat_gui] in E. inversion E. subst g'.
        cbn [with_listmodel colormap_n]. unfold childCount, class_root.
        cbn [childItems]. rewrite class_rows_length. f_equal. lia.
      * apply C. discriminate.
Qed.

(** X22: setting the number of classes to [n] while the list and the
    counter agree on [m] classes gives a class list of [n] rows, but the
    slot that adds or removes the rows moves the counter once more for each
    row: the counter ends at [2 n - m], and agrees with the list only when
    [n = m]. *)
Theorem set_class_max_counts_twice (g : Gui) (m n : nat) :
  classes_agree g m ->
  exists g',
    set_class_max g (UpInt (Z.of_nat n)) = inr g' /\
    listmodel g' = class_root n /\
    max_class g' = (2 * Z.of_nat n - Z.of_nat m)%Z.
Proof.
  intros (HL & HM & HC). unfold set_class_max, change_class_n. rewrite HM.
  destruct (Z.of_nat m - Z.of_nat n >? 0)%Z eqn:G.
  - apply Z.gtb_lt in G.
    destruct (@internal_removals (m - n) n (with_max_class g (Z.of_nat n)))
      as (g' & E & L & M & _).
    { cbn [with_max_class listmodel]. rewrite HL. f_equal. lia. }
    exists g'. replace (Z.to_nat (Z.abs (Z.of_nat m - Z.of_nat n))) with (m - n)%nat by lia.
    split; [exact E|]. split; [exact L|]. rewrite M.
    cbn [with_max_class max_class]. lia.
  - assert (G' : (Z.of_nat m - Z.of_nat n <= 0)%Z).
    { destruct (Z.gtb_spec (Z.of_nat m - Z.of_nat n) 0); [discriminate | lia]. }
    destruct (@internal_additions (n - m) m (with_max_class g (Z.of_nat n)))
      as (g' & E & L & M & _).
    { cbn [with_max_class listmodel]. exact HL. }
    exists g'. replace (Z.to_nat (Z.abs (Z.of_nat m - Z.of_nat n))) with (n - m)%nat by lia.
    split; [exact E|]. split.
    + rewrite L. f_equal. lia.
    + rewrite M. cbn [with_max_class max_class]. lia.
Qed.

Lemma set_class_max_counts_twice_witness :
  exists g',
    set_class_max {| has_image := false; max_class := init_class_n;
                     listmodel := class_root 2; colormap_n := 2 |} (UpInt 1)
    = inr g' /\
    listmodel g' = class_root 1 /\ max_class g' = 0%Z.
Proof.
  apply (@set_class_max_counts_twice
           {| has_image := false; max_class := init_class_n;
              listmodel := class_root 2; colormap_n := 2 |} 2 1).
  repeat split.
Defined.

(** ** Class of an object and exported outlines *)

Lemma index_rootparent_in_range (rootItem : TreeItem) (row : Z) :
  (0 <= row < childCount rootItem)%Z -> index_rootparent rootItem row = inr row.
Proof.
  intros R. unfold index_rootparent, child, py_item, childCount in *.
  rewrite py_position_in_range by exact R.
  destruct (nth_error (childItems rootItem) (Z.to_nat row)) eqn:E; [reflexivity|].
  apply nth_error_None in E. lia.
Qed.

Lemma index_rootparent_beyond (rootItem : TreeItem) (row : Z) :
  (childCount rootItem <= row)%Z -> index_rootparent rootItem row = inl IndexError.
Proof.
  intros R. unfold index_rootparent, child, py_item, py_position, childCount in *.
  replace ((0 <=? row) && (row <? Z.of_nat (length (childItems rootItem))))%Z
    with false by (symmetry; apply andb_false_iff; rewrite Z.leb_gt, Z.ltb_ge; lia).
  replace ((- Z.of_nat (length (childItems rootItem)) <=? row) && (row <? 0))%Z
    with false by (symmetry; apply andb_false_iff; rewrite Z.leb_gt, Z.ltb_ge; lia).
  reflexivity.
Qed.

(** X23: a class index inside the class list stays inside it: moving up
    gives [max (c - 1) 0], moving down gives [min (c + 1) (n - 1)].  An index
    at or beyond the end of the list - what [remove_class] leaves on the
    objects of the class it removed - makes [move_class_down] raise
    [IndexError]. *)
Theorem class_moves_stay_in_list (rootItem : TreeItem) (c : Z) :
  ((0 <= c < Z.of_nat (length (childItems rootItem)))%Z ->
   move_class_up rootItem c = inr (Z.max (c - 1) 0) /\
   move_class_down rootItem c
   = inr (Z.min (c + 1) (Z.of_nat (length (childItems rootItem)) - 1))) /\
  ((Z.of_nat (length (childItems rootItem)) <= c)%Z ->
   move_class_down rootItem c = inl IndexError).
Proof.
  change (Z.of_nat (length (childItems rootItem))) with (childCount rootItem).
  unfold move_class_up, move_class_down. split.
  - intros R. split.
    + destruct (Z.eqb_spec c 0) as [->|N]; [reflexivity|].
      rewrite index_rootparent_in_range by lia. f_equal. lia.
    + destruct (Z.eqb_spec c (childCount rootItem - 1)) as [E|N].
      * f_equal. lia.
      * rewrite index_rootparent_in_range by lia. f_equal. lia.
  - intros R.
    destruct (Z.eqb_spec c (childCount rootItem - 1)) as [E|N]; [lia|].
    apply index_rootparent_beyond. lia.
Qed.

Lemma LinearRing_coords_length (cs : list coord) :
  (length (LinearRing_coords cs) <= S (length cs))%nat.
Proof.
  unfold LinearRing_coords. destruct cs as [|first cs]; [cbn; lia|].
  destruct (rev (first :: cs)) as [|last r]; [lia|].
  destruct (coord_eqb first last); [lia|].
  rewrite length_app. cbn. lia.
Qed.

(** X24: the outline of a gesture of at most four points is never drawn
    by the export: a shorter gesture stays on the object as it was traced,
    and a four-point gesture whose halves have an empty intersection is
    stored as a ring of at most five coordinates, while the export asks for
    more than five. *)
Theorem four_point_outline_not_exported (K : Kernel) (c : Canvas)
        (verts : list coord) (cur : Object) :
  nth_error (objects c) (currentObject c) = Some cur ->
  obj_parent cur = None ->
  (length verts <= 4)%nat ->
  (length verts = 4%nat ->
   intersection K (firstn 2 verts) (skipn 2 verts) = GeometryCollection []) ->
  exists o,
    nth_error (objects (gesture_round K c verts)) (currentObject c) = Some o /\
    obj_x o <> None /\
    outline_exported o = false.
Proof.
  intros Hcur Hp L HI.
  destruct (Nat.eq_dec (length verts) 4) as [E4|N4].
  - specialize (HI E4).
    assert (HI' : intersection K (fst (array_split verts)) (snd (array_split verts))
                  = GeometryCollection []).
    { unfold array_split. rewrite E4. exact HI. }
    clear HI. rename HI' into HI.
    assert (R : replies K c verts
                = [new_coords (xs (LinearRing_coords verts))
                              (ys (LinearRing_coords verts))]).
    { unfold replies, onselect. rewrite Hcur, Hp. cbn [flat_map serve app].
      rewrite app_nil_r, emitted_run. unfold get_lasso_area. rewrite E4.
      cbn [Nat.ltb Nat.leb].
      destruct (array_split_halves verts) as (Happ & _ & Hlen).
      destruct (array_split verts) as [l1 l2]. cbn [fst snd] in *.
      rewrite E4 in Hlen. cbn in Hlen.
      assert (L2 : length l2 = 2%nat).
      { rewrite <- Happ, length_app in E4. lia. }
      rewrite (LineString_init_ok l1), bind_ret_l by lia.
      rewrite (LineString_init_ok l2), bind_ret_l by lia.
      rewrite HI. reflexivity. }
    rewrite (@round_stores_curve K c verts cur _ _ Hcur R).
    eexists. split; [reflexivity|]. cbn [obj_x]. split; [discriminate|].
    unfold outline_exported. cbn [obj_x]. apply Nat.ltb_ge.
    unfold xs. rewrite length_map.
    apply (Nat.le_trans _ _ _ (LinearRing_coords_length verts)).
    rewrite E4. apply Nat.le_refl.
  - assert (S : (length verts < 4)%nat) by lia.
    assert (R : replies K c verts = []).
    { unfold replies, onselect. rewrite Hcur, Hp. cbn [flat_map serve app].
      rewrite app_nil_r. now apply short_lasso_emits_nothing. }
    unfold gesture_round. rewrite R. unfold onselect. rewrite Hcur, Hp.
    cbn [fold_left]. rewrite (@stored_after_onselect c verts cur Hcur).
    eexists. split; [reflexivity|]. cbn [traced obj_x]. split; [discriminate|].
    unfold outline_exported. cbn [obj_x]. apply Nat.ltb_ge.
    unfold xs. rewrite length_map.
    apply (Nat.le_trans _ _ _ L). repeat constructor.
Qed.

Lemma four_point_outline_not_exported_witness :
  exists o,
    nth_error (objects (gesture_round Ref.kernel fresh_session square)) 0 = Some o /\
    obj_x o <> None /\
    outline_exported o = false.
Proof.
  apply (@four_point_outline_not_exported Ref.kernel fresh_session square
           undrawn_object eq_refl eq_refl).
  - cbn. lia.
  - intros _. vm_compute. reflexivity.
Defined.
